(** * Sketchy: the winged-edge kernel, its Euler operators and the polygon facade

    A shallow embedding of
    - [include/sketchy/kernel/geometry.h]      (Vec3, IEEE-754 binary64),
    - [src/core_kernel/winged_edge.cpp], second half and [winged_edge.h] of
      namespace [SketchyKernel]                (WingedEdgeKernel and the Euler operators),
    - [src/core_kernel/winged_edge.cpp], first half, [face.cpp], [vertex.cpp]
      of namespace [sketchy::kernel]           (Mesh, Face, Vertex),
    followed by the properties of the specification that are stated over them.

    Objects live in a heap; a pointer is the index of the object in the table
    of its kind, [None] is [nullptr].  Doubles are Rocq's primitive binary64
    floats, so every arithmetic step rounds as the C++ code does. *)

From Stdlib Require Import ZArith Floats Lia.
From stdpp Require Import base option list gmap strings.

#[global] Set Warnings "-clear-no-such-hyp".

(* ===================================================================== *)
(** ** geometry.h *)
(* ===================================================================== *)

Module Geometry.

Open Scope float_scope.

Record Vec3 := mkVec3 { x : float; y : float; z : float }.
Arguments mkVec3 (x y z)%_float_scope.

(** [Vec3()] *)
Definition zero : Vec3 := mkVec3 0 0 0.

Definition add (a b : Vec3) : Vec3 := mkVec3 (x a + x b) (y a + y b) (z a + z b).
Definition sub (a b : Vec3) : Vec3 := mkVec3 (x a - x b) (y a - y b) (z a - z b).
Definition scale (a : Vec3) (s : float) : Vec3 := mkVec3 (x a * s) (y a * s) (z a * s).
Definition div (a : Vec3) (s : float) : Vec3 := mkVec3 (x a / s) (y a / s) (z a / s).
Definition dot (a b : Vec3) : float := x a * x b + y a * y b + z a * z b.
Definition cross (a b : Vec3) : Vec3 :=
  mkVec3 (y a * z b - z a * y b) (z a * x b - x a * z b) (x a * y b - y a * x b).

(** [std::sqrt(x * x + y * y + z * z)] *)
Definition length (v : Vec3) : float := sqrt (x v * x v + y v * y v + z v * z v).

(** [Vec3::normalized]: the guard is [len > 0]. *)
Definition normalized (v : Vec3) : Vec3 :=
  let len := length v in
  if 0 <? len then div v len else mkVec3 0 0 0.


End Geometry.

(* ===================================================================== *)
(** ** C++ control flow: exceptions, faults and a state monad *)
(* ===================================================================== *)

Module Cpp.

(** The address of an object: its index in the table of the objects of its
    kind.  [None : option ptr] is [nullptr]. *)
Abbreviation ptr := nat.

Inductive exn :=
  | invalid_argument (what : string)
  | runtime_error (what : string).

(** [Fault] is the dereference of a null or unallocated pointer. *)
Inductive outcome (A : Type) :=
  | Ok (a : A)
  | Throw (e : exn)
  | Fault.
Arguments Ok {A} a.
Arguments Throw {A} e.
Arguments Fault {A}.

(** A method of an object whose state (with the heap it points into) is [S]:
    the outcome and the state it leaves, also when it throws. *)
Definition M (S A : Type) : Type := S → outcome A * S.

Definition ret {S A} (a : A) : M S A := λ k, (Ok a, k).
Definition bind {S A B} (f : A → M S B) (m : M S A) : M S B :=
  λ k, match m k with
       | (Ok a, k') => f a k'
       | (Throw e, k') => (Throw e, k')
       | (Fault, k') => (Fault, k')
       end.
Definition throw {S A} (e : exn) : M S A := λ k, (Throw e, k).
Definition fault {S A} : M S A := λ k, (Fault, k).

(** stdpp's notations: [x ← m; f] and [m;; f]. *)
#[global] Instance M_ret S : MRet (M S) := @ret S.
#[global] Instance M_bind S : MBind (M S) := @bind S.

Definition when {S} (b : bool) (m : M S unit) : M S unit := if b then m else mret tt.

(** A range-based [for] over a vector. *)
Fixpoint for_each {S A} (l : list A) (body : A → M S unit) : M S unit :=
  match l with
  | [] => mret tt
  | p :: l' => body p;; for_each l' body
  end.

(** A const method called from another method. *)
Definition query {S A} (q : S → outcome A) : M S A := λ k, (q k, k).

(** Running a method: the outcome and the state it leaves. *)
Definition run {S A} (m : M S A) (k : S) : outcome A * S := m k.
Definition exec {S A} (m : M S A) (k : S) : S := snd (m k).

End Cpp.

(* ===================================================================== *)
(** ** SketchyKernel: winged_edge.h *)
(* ===================================================================== *)

Module SketchyKernel.
Export Cpp.

(** [ptr] is the address of an object of some kind; [option ptr] is a
    [shared_ptr]. *)

Record Point3D := mkPoint3D { px : float; py : float; pz : float }.
Arguments mkPoint3D (px py pz)%_float_scope.

Record Vertex := mkVertex {
  v_id : Z;
  coords : Point3D;
  v_edge : option ptr            (* one incident edge *)
}.

Record Edge := mkEdge {
  e_id : Z;
  v1 : option ptr; v2 : option ptr;
  f1 : option ptr; f2 : option ptr;
  p1_f1 : option ptr; n1_f1 : option ptr;
  p2_f2 : option ptr; n2_f2 : option ptr
}.

Record Face := mkFace {
  f_id : Z;
  f_edge : option ptr            (* one edge on its boundary *)
}.

(** [Edge(int id)]: everything else is [nullptr]. *)
Definition Edge_new (id : Z) : Edge := mkEdge id None None None None None None None None.

(** Field assignments. *)
Definition set_v_edge (e : option ptr) (v : Vertex) : Vertex := mkVertex (v_id v) (coords v) e.
Definition set_f_edge (e : option ptr) (f : Face) : Face := mkFace (f_id f) e.
Definition set_v1 (p : option ptr) (e : Edge) : Edge :=
  mkEdge (e_id e) p (v2 e) (f1 e) (f2 e) (p1_f1 e) (n1_f1 e) (p2_f2 e) (n2_f2 e).
Definition set_v2 (p : option ptr) (e : Edge) : Edge :=
  mkEdge (e_id e) (v1 e) p (f1 e) (f2 e) (p1_f1 e) (n1_f1 e) (p2_f2 e) (n2_f2 e).
Definition set_f1 (p : option ptr) (e : Edge) : Edge :=
  mkEdge (e_id e) (v1 e) (v2 e) p (f2 e) (p1_f1 e) (n1_f1 e) (p2_f2 e) (n2_f2 e).
Definition set_f2 (p : option ptr) (e : Edge) : Edge :=
  mkEdge (e_id e) (v1 e) (v2 e) (f1 e) p (p1_f1 e) (n1_f1 e) (p2_f2 e) (n2_f2 e).
Definition set_p1_f1 (p : option ptr) (e : Edge) : Edge :=
  mkEdge (e_id e) (v1 e) (v2 e) (f1 e) (f2 e) p (n1_f1 e) (p2_f2 e) (n2_f2 e).
Definition set_n1_f1 (p : option ptr) (e : Edge) : Edge :=
  mkEdge (e_id e) (v1 e) (v2 e) (f1 e) (f2 e) (p1_f1 e) p (p2_f2 e) (n2_f2 e).
Definition set_p2_f2 (p : option ptr) (e : Edge) : Edge :=
  mkEdge (e_id e) (v1 e) (v2 e) (f1 e) (f2 e) (p1_f1 e) (n1_f1 e) p (n2_f2 e).
Definition set_n2_f2 (p : option ptr) (e : Edge) : Edge :=
  mkEdge (e_id e) (v1 e) (v2 e) (f1 e) (f2 e) (p1_f1 e) (n1_f1 e) (p2_f2 e) p.

(** The kernel object together with the heap its [shared_ptr]s point into.
    [vheap], [eheap], [fheap] hold every object ever made by [make_shared]
    (an object stays reachable through the handles a caller keeps, also after
    it has left the pools); [vertices], [edges], [faces] are the three
    [std::vector]s of the class. *)
Record WingedEdgeKernel := mkKernel {
  vheap : list Vertex;
  eheap : list Edge;
  fheap : list Face;
  vertices : list ptr;
  edges : list ptr;
  faces : list ptr;
  next_v_id : Z;
  next_e_id : Z;
  next_f_id : Z
}.

(** [WingedEdgeKernel() = default] *)
Definition empty : WingedEdgeKernel := mkKernel [] [] [] [] [] [] 1 1 1.

Definition getVertexCount (k : WingedEdgeKernel) : nat := length (vertices k).
Definition getEdgeCount (k : WingedEdgeKernel) : nat := length (edges k).
Definition getFaceCount (k : WingedEdgeKernel) : nat := length (faces k).

Definition with_vheap (h : list Vertex) (k : WingedEdgeKernel) :=
  mkKernel h (eheap k) (fheap k) (vertices k) (edges k) (faces k)
           (next_v_id k) (next_e_id k) (next_f_id k).
Definition with_eheap (h : list Edge) (k : WingedEdgeKernel) :=
  mkKernel (vheap k) h (fheap k) (vertices k) (edges k) (faces k)
           (next_v_id k) (next_e_id k) (next_f_id k).
Definition with_fheap (h : list Face) (k : WingedEdgeKernel) :=
  mkKernel (vheap k) (eheap k) h (vertices k) (edges k) (faces k)
           (next_v_id k) (next_e_id k) (next_f_id k).
Definition with_vertices (l : list ptr) (k : WingedEdgeKernel) :=
  mkKernel (vheap k) (eheap k) (fheap k) l (edges k) (faces k)
           (next_v_id k) (next_e_id k) (next_f_id k).
Definition with_edges (l : list ptr) (k : WingedEdgeKernel) :=
  mkKernel (vheap k) (eheap k) (fheap k) (vertices k) l (faces k)
           (next_v_id k) (next_e_id k) (next_f_id k).
Definition with_faces (l : list ptr) (k : WingedEdgeKernel) :=
  mkKernel (vheap k) (eheap k) (fheap k) (vertices k) (edges k) l
           (next_v_id k) (next_e_id k) (next_f_id k).

(* --------------------------------------------------------------------- *)
(** *** The state monad of the operators *)

Abbreviation M := (Cpp.M WingedEdgeKernel).

(** [next_v_id++] and its siblings.  [int] overflow is undefined behaviour in
    C++ and is not modelled: the counters are integers. *)
Definition fresh_v_id : M Z :=
  λ k, (Ok (next_v_id k),
        mkKernel (vheap k) (eheap k) (fheap k) (vertices k) (edges k) (faces k)
                 (next_v_id k + 1) (next_e_id k) (next_f_id k)).
Definition fresh_e_id : M Z :=
  λ k, (Ok (next_e_id k),
        mkKernel (vheap k) (eheap k) (fheap k) (vertices k) (edges k) (faces k)
                 (next_v_id k) (next_e_id k + 1) (next_f_id k)).
Definition fresh_f_id : M Z :=
  λ k, (Ok (next_f_id k),
        mkKernel (vheap k) (eheap k) (fheap k) (vertices k) (edges k) (faces k)
                 (next_v_id k) (next_e_id k) (next_f_id k + 1)).

(** [std::make_shared<...>(...)]: a new object at a fresh address. *)
Definition make_vertex (id : Z) (c : Point3D) : M ptr :=
  λ k, (Ok (length (vheap k)), with_vheap (vheap k ++ [mkVertex id c None]) k).
Definition make_edge (id : Z) : M ptr :=
  λ k, (Ok (length (eheap k)), with_eheap (eheap k ++ [Edge_new id]) k).
Definition make_face (id : Z) : M ptr :=
  λ k, (Ok (length (fheap k)), with_fheap (fheap k ++ [mkFace id None]) k).

(** [p->field] read and [p->field = ...] write. *)
Definition read_vertex (p : ptr) : M Vertex :=
  λ k, match vheap k !! p with Some v => (Ok v, k) | None => (Fault, k) end.
Definition read_edge (p : ptr) : M Edge :=
  λ k, match eheap k !! p with Some e => (Ok e, k) | None => (Fault, k) end.
Definition read_face (p : ptr) : M Face :=
  λ k, match fheap k !! p with Some f => (Ok f, k) | None => (Fault, k) end.

Definition write_vertex (p : ptr) (upd : Vertex → Vertex) : M unit :=
  λ k, match vheap k !! p with
       | Some _ => (Ok tt, with_vheap (alter upd p (vheap k)) k)
       | None => (Fault, k)
       end.
Definition write_edge (p : ptr) (upd : Edge → Edge) : M unit :=
  λ k, match eheap k !! p with
       | Some _ => (Ok tt, with_eheap (alter upd p (eheap k)) k)
       | None => (Fault, k)
       end.
Definition write_face (p : ptr) (upd : Face → Face) : M unit :=
  λ k, match fheap k !! p with
       | Some _ => (Ok tt, with_fheap (alter upd p (fheap k)) k)
       | None => (Fault, k)
       end.

(** Through a possibly null pointer. *)
Definition deref_edge (p : option ptr) : M Edge :=
  match p with Some q => read_edge q | None => fault end.
Definition assign_edge (p : option ptr) (upd : Edge → Edge) : M unit :=
  match p with Some q => write_edge q upd | None => fault end.

(** [push_back] and [erase(std::remove(...))] on the three vectors. *)
Definition push_vertex (p : ptr) : M unit := λ k, (Ok tt, with_vertices (vertices k ++ [p]) k).
Definition push_edge (p : ptr) : M unit := λ k, (Ok tt, with_edges (edges k ++ [p]) k).
Definition push_face (p : ptr) : M unit := λ k, (Ok tt, with_faces (faces k ++ [p]) k).
Definition erase_edge (p : ptr) : M unit :=
  λ k, (Ok tt, with_edges (filter (λ q, q ≠ p) (edges k)) k).
Definition erase_face (p : ptr) : M unit :=
  λ k, (Ok tt, with_faces (filter (λ q, q ≠ p) (faces k)) k).

Definition get_edges : M (list ptr) := λ k, (Ok (edges k), k).

(* --------------------------------------------------------------------- *)
(** *** Euler operators (winged_edge.cpp) *)

(** [WingedEdgeKernel::mvsf] *)
Definition mvsf (coords : Point3D) : M ptr :=
  vid ← fresh_v_id;
  vertex ← make_vertex vid coords;
  push_vertex vertex;;
  fid ← fresh_f_id;
  face ← make_face fid;
  push_face face;;
  mret vertex.

(** [WingedEdgeKernel::mev] *)
Definition mev (from_vertex : option ptr) (to_coords : Point3D) (on_face : option ptr)
  : M ptr :=
  match from_vertex, on_face with
  | None, _ => throw (invalid_argument "MEV: from_vertex cannot be null")
  | Some _, None => throw (invalid_argument "MEV: on_face cannot be null")
  | Some fv, Some onf =>
      (* create the new vertex *)
      vid ← fresh_v_id;
      new_vertex ← make_vertex vid to_coords;
      push_vertex new_vertex;;
      (* create the new edge connecting from_vertex to new_vertex *)
      eid ← fresh_e_id;
      new_edge ← make_edge eid;
      write_edge new_edge (set_v1 (Some fv));;
      write_edge new_edge (set_v2 (Some new_vertex));;
      write_edge new_edge (set_f1 (Some onf));;
      write_edge new_edge (set_f2 (Some onf));;
      push_edge new_edge;;
      (* update vertex edge references *)
      fvr ← read_vertex fv;
      when (bool_decide (v_edge fvr = None))
           (write_vertex fv (set_v_edge (Some new_edge)));;
      write_vertex new_vertex (set_v_edge (Some new_edge));;
      (* update face edge reference if not set *)
      onfr ← read_face onf;
      when (bool_decide (f_edge onfr = None))
           (write_face onf (set_f_edge (Some new_edge)));;
      (* wire up the edge connectivity *)
      fvr ← read_vertex fv;
      (if bool_decide (v_edge fvr = Some new_edge) then
         write_edge new_edge (set_p1_f1 (Some new_edge));;
         write_edge new_edge (set_n1_f1 (Some new_edge));;
         write_edge new_edge (set_p2_f2 (Some new_edge));;
         write_edge new_edge (set_n2_f2 (Some new_edge))
       else
         let prev_edge := v_edge fvr in
         write_edge new_edge (set_p1_f1 prev_edge);;
         pe ← deref_edge prev_edge;
         write_edge new_edge (set_n1_f1 (n1_f1 pe));;
         pe ← deref_edge prev_edge;
         (if bool_decide (v2 pe = Some fv)
          then assign_edge prev_edge (set_n2_f2 (Some new_edge))
          else assign_edge prev_edge (set_n1_f1 (Some new_edge)));;
         write_edge new_edge (set_p2_f2 (Some new_edge));;
         write_edge new_edge (set_n2_f2 (Some new_edge)));;
      mret new_edge
  end.

(** [WingedEdgeKernel::mef] *)
Definition mef (v1 v2 face : option ptr) : M ptr :=
  match v1, v2, face with
  | Some a, Some b, Some f =>
      if bool_decide (a = b) then
        throw (invalid_argument "MEF: cannot create edge between same vertex")
      else
        (* create the new edge *)
        eid ← fresh_e_id;
        new_edge ← make_edge eid;
        write_edge new_edge (set_v1 (Some a));;
        write_edge new_edge (set_v2 (Some b));;
        (* create the new face *)
        fid ← fresh_f_id;
        new_face ← make_face fid;
        write_edge new_edge (set_f1 (Some f));;
        write_edge new_edge (set_f2 (Some new_face));;
        push_edge new_edge;;
        push_face new_face;;
        write_face new_face (set_f_edge (Some new_edge));;
        (* wire up the connectivity *)
        ar ← read_vertex a;
        let v1_edge := v_edge ar in
        when (bool_decide (v1_edge ≠ None))
             (write_edge new_edge (set_p1_f1 v1_edge);;
              write_edge new_edge (set_n1_f1 v1_edge));;
        br ← read_vertex b;
        let v2_edge := v_edge br in
        when (bool_decide (v2_edge ≠ None))
             (write_edge new_edge (set_p2_f2 v2_edge);;
              write_edge new_edge (set_n2_f2 v2_edge));;
        mret new_edge
  | _, _, _ => throw (invalid_argument "MEF: vertices and face cannot be null")
  end.

(** The body of the sweep of [kef]: [if (e->f1 == f2) e->f1 = f1; if (e->f2 == f2) e->f2 = f1;] *)
Definition kef_rewrite (fa fb : option ptr) (e : ptr) : M unit :=
  er ← read_edge e;
  when (bool_decide (f1 er = fb)) (write_edge e (set_f1 fa));;
  er ← read_edge e;
  when (bool_decide (f2 er = fb)) (write_edge e (set_f2 fa)).

(** [WingedEdgeKernel::kef]: returns the surviving face. *)
Definition kef (edge : option ptr) : M (option ptr) :=
  match edge with
  | None => throw (invalid_argument "KEF: edge cannot be null")
  | Some e =>
      er ← read_edge e;
      if bool_decide (f1 er = None) || bool_decide (f2 er = None) then
        throw (invalid_argument "KEF: edge must be adjacent to two faces")
      else
        let fa := f1 er in
        let fb := f2 er in
        (* remove the edge from the edge list *)
        erase_edge e;;
        (* merge f2 into f1: every edge that references f2 now references f1 *)
        es ← get_edges;
        for_each es (kef_rewrite fa fb);;
        (* remove f2 from the face list *)
        match fb with
        | Some b => erase_face b
        | None => mret tt
        end;;
        mret fa
  end.

(* --------------------------------------------------------------------- *)
(** *** Navigation (const methods: the state is only read) *)

(** The two walks share their shape: a [do ... while] loop with a set of the
    visited edge ids.  One iteration either stops with the edges collected, or
    moves to the next edge.  [side] picks the link to follow from an edge
    record: [Some link] or [None] for the [else break] of the source. *)
Section Walk.
Variable k : WingedEdgeKernel.
Variable side : Edge → option (option ptr).

Fixpoint walk (fuel : nat) (start current : ptr) (visited : gset Z) (result : list ptr)
  : option (outcome (list ptr)) :=
  match fuel with
  | O => None
  | S fuel' =>
      match eheap k !! current with
      | None => Some Fault
      | Some ce =>
          if bool_decide (e_id ce ∈ visited) then Some (Ok result)
          else
            let visited := {[ e_id ce ]} ∪ visited in
            let result := result ++ [current] in
            match side ce with
            | None => Some (Ok result)
            | Some None => Some (Ok result)
            | Some (Some next) =>
                if bool_decide (length (edges k) < size visited) then Some (Ok result)
                else if bool_decide (next = start) then Some (Ok result)
                else walk fuel' start next visited result
            end
      end
  end.
End Walk.

(** [if (current_edge->v1 == v) n1_f1 else if (current_edge->v2 == v) n2_f2 else break] *)
Definition vertex_side (v : ptr) (ce : Edge) : option (option ptr) :=
  if bool_decide (v1 ce = Some v) then Some (n1_f1 ce)
  else if bool_decide (v2 ce = Some v) then Some (n2_f2 ce)
  else None.

(** [if (current_edge->f1 == f) n1_f1 else if (current_edge->f2 == f) n2_f2 else break] *)
Definition face_side (f : ptr) (ce : Edge) : option (option ptr) :=
  if bool_decide (f1 ce = Some f) then Some (n1_f1 ce)
  else if bool_decide (f2 ce = Some f) then Some (n2_f2 ce)
  else None.

(** [WingedEdgeKernel::getIncidentEdges], with the number of loop iterations
    bounded by [fuel]; [None] when the fuel runs out. *)
Definition getIncidentEdges_fuel (fuel : nat) (k : WingedEdgeKernel) (v : option ptr)
  : option (outcome (list ptr)) :=
  match v with
  | None => Some (Ok [])
  | Some pv =>
      match vheap k !! pv with
      | None => Some Fault
      | Some vr =>
          match v_edge vr with
          | None => Some (Ok [])
          | Some start_edge => walk k (vertex_side pv) fuel start_edge start_edge ∅ []
          end
      end
  end.

(** [WingedEdgeKernel::getFaceBoundary], likewise. *)
Definition getFaceBoundary_fuel (fuel : nat) (k : WingedEdgeKernel) (f : option ptr)
  : option (outcome (list ptr)) :=
  match f with
  | None => Some (Ok [])
  | Some pf =>
      match fheap k !! pf with
      | None => Some Fault
      | Some fr =>
          match f_edge fr with
          | None => Some (Ok [])
          | Some start_edge => walk k (face_side pf) fuel start_edge start_edge ∅ []
          end
      end
  end.

(** [length (edges k) + 2] iterations always suffice (lemma [walk_terminates] below),
    so these are the two methods themselves. *)
Definition enough (k : WingedEdgeKernel) : nat := length (edges k) + 2.

Definition getIncidentEdges (k : WingedEdgeKernel) (v : option ptr) : outcome (list ptr) :=
  default Fault (getIncidentEdges_fuel (enough k) k v).

Definition getFaceBoundary (k : WingedEdgeKernel) (f : option ptr) : outcome (list ptr) :=
  default Fault (getFaceBoundary_fuel (enough k) k f).


(** [WingedEdgeKernel::kfmrh] *)
Definition kfmrh_rewrite (hole outer : option ptr) (e : ptr) : M unit :=
  er ← read_edge e;
  when (bool_decide (f1 er = hole)) (write_edge e (set_f1 outer));;
  er ← read_edge e;
  when (bool_decide (f2 er = hole)) (write_edge e (set_f2 outer)).

Definition kfmrh (hole_face outer_face : option ptr) : M unit :=
  match hole_face, outer_face with
  | Some h, Some _ =>
      erase_face h;;
      boundary ← query (λ k, getFaceBoundary k hole_face);
      for_each boundary (kfmrh_rewrite hole_face outer_face)
  | _, _ => throw (invalid_argument "KFMRH: faces cannot be null")
  end.

End SketchyKernel.

(* ===================================================================== *)
(** ** sketchy::kernel: the Mesh facade (winged_edge.h/.cpp, face.cpp, vertex.cpp) *)
(* ===================================================================== *)

Module SketchyMesh.
Export Cpp.

Abbreviation Vec3 := Geometry.Vec3.
Abbreviation mkVec3 := Geometry.mkVec3.
Abbreviation normalized := Geometry.normalized.

(** The mesh owns its objects through the three vectors of [unique_ptr] and
    never removes one: a raw pointer [Vertex*], [Edge*] or [Face*] is the index
    of the object in its vector, [None] is [nullptr]. *)
Record Vertex := mkVertex {
  position : Vec3;
  v_edge : option ptr            (* [Vertex::edge] *)
}.

Record Edge := mkEdge {
  v1 : option ptr; v2 : option ptr;
  left_face : option ptr; right_face : option ptr;
  left_prev : option ptr; left_next : option ptr;
  right_prev : option ptr; right_next : option ptr
}.

Record Face := mkFace {
  f_edge : option ptr;           (* [Face::edge] *)
  normal : Vec3
}.

Record Mesh := mkMesh {
  vertices : list Vertex;
  edges : list Edge;
  faces : list Face
}.

(** [Mesh() = default] *)
Definition empty : Mesh := mkMesh [] [] [].

Abbreviation M := (Cpp.M Mesh).

Definition set_v_edge (e : option ptr) (v : Vertex) : Vertex := mkVertex (position v) e.
Definition set_normal (n : Vec3) (f : Face) : Face := mkFace (f_edge f) n.
Definition set_left (f next prev : option ptr) (e : Edge) : Edge :=
  mkEdge (v1 e) (v2 e) f (right_face e) prev next (right_prev e) (right_next e).
Definition set_right (f next prev : option ptr) (e : Edge) : Edge :=
  mkEdge (v1 e) (v2 e) (left_face e) f (left_prev e) (left_next e) prev next.

Definition with_vertices (l : list Vertex) (m : Mesh) : Mesh := mkMesh l (edges m) (faces m).
Definition with_edges (l : list Edge) (m : Mesh) : Mesh := mkMesh (vertices m) l (faces m).
Definition with_faces (l : list Face) (m : Mesh) : Mesh := mkMesh (vertices m) (edges m) l.

Definition read_vertex (p : option ptr) : M Vertex :=
  λ m, match p ≫= (vertices m !!.) with Some v => (Ok v, m) | None => (Fault, m) end.
Definition read_edge (p : option ptr) : M Edge :=
  λ m, match p ≫= (edges m !!.) with Some e => (Ok e, m) | None => (Fault, m) end.
Definition read_face (p : option ptr) : M Face :=
  λ m, match p ≫= (faces m !!.) with Some f => (Ok f, m) | None => (Fault, m) end.

Definition write_vertex (p : ptr) (upd : Vertex → Vertex) : M unit :=
  λ m, match vertices m !! p with
       | Some _ => (Ok tt, with_vertices (alter upd p (vertices m)) m)
       | None => (Fault, m)
       end.
Definition write_edge (p : ptr) (upd : Edge → Edge) : M unit :=
  λ m, match edges m !! p with
       | Some _ => (Ok tt, with_edges (alter upd p (edges m)) m)
       | None => (Fault, m)
       end.
Definition write_face (p : ptr) (upd : Face → Face) : M unit :=
  λ m, match faces m !! p with
       | Some _ => (Ok tt, with_faces (alter upd p (faces m)) m)
       | None => (Fault, m)
       end.

(* --------------------------------------------------------------------- *)
(** *** face.cpp *)

(** The [do ... while] loop of [Face::get_boundary_edges]; [fuel] bounds the
    number of iterations and [None] is returned when it runs out. *)
Fixpoint boundary_loop (m : Mesh) (this start : ptr) (fuel : nat) (current : ptr)
    (result : list ptr) : option (outcome (list ptr)) :=
  match fuel with
  | O => None
  | S fuel' =>
      let result := result ++ [current] in
      match edges m !! current with
      | None => Some Fault
      | Some ce =>
          let next :=
            if bool_decide (left_face ce = Some this) then Some (left_next ce)
            else if bool_decide (right_face ce = Some this) then Some (right_next ce)
            else None in
          match next with
          | None => Some (Ok result)                      (* edge not on this face *)
          | Some next =>
              if bool_decide (1000 < length result) then Some (Ok result)
              else match next with
                   | None => Some (Ok result)
                   | Some c =>
                       if bool_decide (c = start) then Some (Ok result)
                       else boundary_loop m this start fuel' c result
                   end
          end
      end
  end.

(** [Face::get_boundary_edges]: the cap of the source stops the loop after
    at most 1001 iterations, so this fuel is enough (lemma
    [boundary_loop_terminates]). *)
Definition get_boundary_edges (m : Mesh) (this : ptr) : outcome (list ptr) :=
  match faces m !! this with
  | None => Fault
  | Some fr =>
      match f_edge fr with
      | None => Ok []
      | Some e => default Fault (boundary_loop m this e 1002 e [])
      end
  end.

(** [Face::get_vertices] *)
Definition get_vertices (m : Mesh) (this : ptr) : outcome (list (option ptr)) :=
  match get_boundary_edges m this with
  | Ok es =>
      foldl (λ acc e,
               match acc, edges m !! e with
               | Ok vs, Some er =>
                   Ok (vs ++ [if bool_decide (left_face er = Some this) then v1 er else v2 er])
               | Ok _, None => Fault
               | other, _ => other
               end) (Ok []) es
  | Throw x => Throw x
  | Fault => Fault
  end.

Open Scope float_scope.

(** One step of Newell's method, for the positions [a] and [b] of two
    consecutive vertices. *)
Definition newell_step (n a b : Vec3) : Vec3 :=
  let '(Geometry.mkVec3 nx ny nz) := n in
  let '(Geometry.mkVec3 ax ay az) := a in
  let '(Geometry.mkVec3 bx by_ bz) := b in
  mkVec3 (nx + (ay - by_) * (az + bz))
         (ny + (az - bz) * (ax + bx))
         (nz + (ax - bx) * (ay + by_)).

(** The loop [for (i = 0; i < vertices.size(); i++)] over the positions. *)
Definition newell (ps : list Vec3) : Vec3 :=
  foldl (λ n i,
           match ps !! i, ps !! ((i + 1) mod length ps)%nat with
           | Some a, Some b => newell_step n a b
           | _, _ => n
           end) (mkVec3 0 0 0) (seq 0 (length ps)).

Close Scope float_scope.

(** [vertices[i]->position] for every vertex of the walk. *)
Definition positions (m : Mesh) (vs : list (option ptr)) : outcome (list Vec3) :=
  foldr (λ v acc,
           match v ≫= (vertices m !!.), acc with
           | Some vr, Ok ps => Ok (position vr :: ps)
           | None, _ => Fault
           | _, other => other
           end) (Ok []) vs.

(** The normal [Face::compute_normal] stores for the vertex positions of the
    walk: the default for fewer than three vertices, Newell's vector
    normalized otherwise. *)
Definition normal_of (ps : list Vec3) : Vec3 :=
  if bool_decide (length ps < 3) then mkVec3 0 0 1
  else normalized (newell ps).

(** [Face::compute_normal] *)
Definition compute_normal (this : ptr) : M unit :=
  vs ← query (λ m, get_vertices m this);
  if bool_decide (length vs < 3) then
    write_face this (set_normal (mkVec3 0 0 1))          (* default normal *)
  else
    ps ← query (λ m, positions m vs);
    write_face this (set_normal (normalized (newell ps))).

(** [std::make_unique<Face>(e)] followed by [faces.push_back]: the
    constructor [Face(Edge* e) : edge(e), normal(0, 0, 0) { compute_normal(); }]
    runs on the new object, whose address is its slot in [faces]. *)
Definition make_face (e : option ptr) : M ptr :=
  λ m, let this := length (faces m) in
       match compute_normal this (with_faces (faces m ++ [mkFace e (mkVec3 0 0 0)]) m) with
       | (Ok _, m') => (Ok this, m')
       | (Throw x, m') => (Throw x, m')
       | (Fault, m') => (Fault, m')
       end.

(* --------------------------------------------------------------------- *)
(** *** winged_edge.cpp, first half *)

(** [Mesh::add_vertex] *)
Definition add_vertex (position : Vec3) : M ptr :=
  λ m, (Ok (length (vertices m)), with_vertices (vertices m ++ [mkVertex position None]) m).

(** [Mesh::add_edge] *)
Definition add_edge (v1 v2 : option ptr) : M ptr :=
  match v1, v2 with
  | Some a, Some b =>
      if bool_decide (a = b) then
        throw (invalid_argument "Cannot create edge with same start and end vertex")
      else
        new_edge ← (λ m, (Ok (length (edges m)),
                          with_edges (edges m ++ [mkEdge v1 v2 None None None None None None]) m));
        ar ← read_vertex v1;
        when (bool_decide (v_edge ar = None)) (write_vertex a (set_v_edge (Some new_edge)));;
        br ← read_vertex v2;
        when (bool_decide (v_edge br = None)) (write_vertex b (set_v_edge (Some new_edge)));;
        mret new_edge
  | _, _ => throw (invalid_argument "Cannot create edge with null vertices")
  end.

(** [(e->v1 == v1 && e->v2 == v2) || (e->v1 == v2 && e->v2 == v1)] *)
Definition connects (a b : option ptr) (e : Edge) : Prop :=
  (v1 e = a ∧ v2 e = b) ∨ (v1 e = b ∧ v2 e = a).

#[global] Instance connects_dec a b e : Decision (connects a b e).
Proof. unfold connects. apply _. Defined.

(** The search loop of [add_face]: the first edge between the two vertices. *)
Definition find_edge (m : Mesh) (a b : option ptr) : option ptr :=
  fst <$> list_find (connects a b) (edges m).

(** Look for an existing edge, create a new one if not found. *)
Definition find_or_add_edge (a b : option ptr) : M ptr :=
  found ← query (λ m, Ok (find_edge m a b));
  match found with
  | Some e => mret e
  | None => add_edge a b
  end.

Fixpoint collect_edges (pairs : list (option ptr * option ptr)) : M (list ptr) :=
  match pairs with
  | [] => mret []
  | (a, b) :: rest =>
      e ← find_or_add_edge a b;
      es ← collect_edges rest;
      mret (e :: es)
  end.

(** [verts[i]] and [verts[(i + 1) % verts.size()]] for [i = 0 .. size-1]. *)
Definition vertex_pairs (verts : list (option ptr)) : list (option ptr * option ptr) :=
  (λ i, (mjoin (verts !! i), mjoin (verts !! ((i + 1) mod length verts)))) <$> seq 0 (length verts).

(** [current], [next] and [prev] of the wiring loop for [i = 0 .. size-1]:
    [face_edges[i]], [face_edges[(i + 1) % size]], [face_edges[(i + size - 1) % size]]. *)
Definition wiring (face_edges : list ptr) : list (ptr * option ptr * option ptr) :=
  let n := length face_edges in
  imap (λ i current,
          (current, face_edges !! ((i + 1) mod n), face_edges !! ((i + n - 1) mod n)))
       face_edges.

(** The body of the wiring loop. *)
Definition wire (new_face : ptr) (t : ptr * option ptr * option ptr) : M unit :=
  let '(current, next, prev) := t in
  cr ← read_edge (Some current);
  let is_left_face := bool_decide (left_face cr = None) in
  if is_left_face then write_edge current (set_left (Some new_face) next prev)
  else write_edge current (set_right (Some new_face) next prev).

(** [Mesh::add_face] *)
Definition add_face (verts : list (option ptr)) : M ptr :=
  if bool_decide (length verts < 3) then
    throw (invalid_argument "Face must have at least 3 vertices")
  else
    (* create or find edges for this face *)
    face_edges ← collect_edges (vertex_pairs verts);
    (* create the face *)
    new_face ← make_face (face_edges !! 0);
    (* set up winged-edge connections *)
    for_each (wiring face_edges) (wire new_face);;
    compute_normal new_face;;
    mret new_face.

(** [Mesh::create_plane] *)
Definition create_plane (hw hh : float) : M unit :=
  v0 ← add_vertex (mkVec3 (- hw) (- hh) 0);
  v1 ← add_vertex (mkVec3 hw (- hh) 0);
  v2 ← add_vertex (mkVec3 hw hh 0);
  v3 ← add_vertex (mkVec3 (- hw) hh 0);
  add_face [Some v0; Some v1; Some v2; Some v3];;
  mret tt.

(* --------------------------------------------------------------------- *)
(** *** vertex.cpp *)

(** The two inner [while] loops of [Vertex::get_incident_edges].  Inside the
    loop neither endpoint of [current] is [this], so the [if] of the source
    always takes its [else] branch: the first loop follows [left_next], the
    second [right_next].  There is no cap on these loops. *)
Fixpoint skip_loop (m : Mesh) (this : ptr) (via : Edge → option ptr) (fuel : nat)
    (current : option ptr) : option (outcome (option ptr)) :=
  match fuel with
  | O => None
  | S fuel' =>
      match current with
      | None => Some (Ok None)
      | Some c =>
          match edges m !! c with
          | None => Some Fault
          | Some cr =>
              if bool_decide (v2 cr ≠ Some this) && bool_decide (v1 cr ≠ Some this)
              then skip_loop m this via fuel' (via cr)
              else Some (Ok current)
          end
      end
  end.

(** The outer [do ... while] loop, capped at 1001 results. *)
Fixpoint incident_loop (m : Mesh) (this start : ptr) (fuel : nat) (current : ptr)
    (result : list ptr) : option (outcome (list ptr)) :=
  match fuel with
  | O => None
  | S fuel' =>
      let result := result ++ [current] in
      match edges m !! current with
      | None => Some Fault
      | Some ce =>
          let found :=
            if bool_decide (v1 ce = Some this)
            then skip_loop m this left_next fuel (right_next ce)
            else skip_loop m this right_next fuel (left_next ce) in
          match found with
          | None => None
          | Some (Ok next) =>
              if bool_decide (1000 < length result) then Some (Ok result)
              else match next with
                   | None => Some (Ok result)
                   | Some c =>
                       if bool_decide (c = start) then Some (Ok result)
                       else incident_loop m this start fuel' c result
                   end
          | Some (Throw x) => Some (Throw x)
          | Some Fault => Some Fault
          end
      end
  end.

(** [Vertex::get_incident_edges] with every loop bounded by [fuel]. *)
Definition get_incident_edges_fuel (fuel : nat) (m : Mesh) (this : ptr)
  : option (outcome (list ptr)) :=
  match vertices m !! this with
  | None => Some Fault
  | Some vr =>
      match v_edge vr with
      | None => Some (Ok [])
      | Some e => incident_loop m this e fuel e []
      end
  end.

End SketchyMesh.

(* ===================================================================== *)
(** ** Vocabulary of the statements about the Euler operators *)
(* ===================================================================== *)

Module KernelSpec.
Import SketchyKernel.

(** The state [mev] leaves, written out.  [fvr] and [fr] are the records of
    [from_vertex] and [on_face] before the call, [per] the record of the edge
    [from_vertex->edge] when there is one. *)
Definition mev_state (k : WingedEdgeKernel) (fv : ptr) (p : Point3D) (onf : ptr)
   (fvr : Vertex) (fr : Face) (per : Edge) : WingedEdgeKernel :=
  let nv := length (vheap k) in
  let ne := length (eheap k) in
  mkKernel
    ((if bool_decide (v_edge fvr = None)
      then alter (set_v_edge (Some ne)) fv (vheap k) else vheap k)
       ++ [mkVertex (next_v_id k) p (Some ne)])
    (match v_edge fvr with
     | None => eheap k ++ [mkEdge (next_e_id k) (Some fv) (Some nv) (Some onf) (Some onf)
                             (Some ne) (Some ne) (Some ne) (Some ne)]
     | Some pe =>
         alter (if bool_decide (v2 per = Some fv)
                then set_n2_f2 (Some ne) else set_n1_f1 (Some ne)) pe (eheap k)
         ++ [mkEdge (next_e_id k) (Some fv) (Some nv) (Some onf) (Some onf)
               (Some pe) (n1_f1 per) (Some ne) (Some ne)]
     end)
    (if bool_decide (f_edge fr = None)
     then alter (set_f_edge (Some ne)) onf (fheap k) else fheap k)
    (vertices k ++ [nv]) (edges k ++ [ne]) (faces k)
    (next_v_id k + 1) (next_e_id k + 1) (next_f_id k).

(** The state [mef] leaves: one edge record and one face record are added and
    nothing else is written. *)
Definition mef_state (k : WingedEdgeKernel) (a b f : ptr) (ar br : Vertex)
  : WingedEdgeKernel :=
  let ne := length (eheap k) in
  let nf := length (fheap k) in
  mkKernel (vheap k)
    (eheap k ++ [mkEdge (next_e_id k) (Some a) (Some b) (Some f) (Some nf)
                   (v_edge ar) (v_edge ar) (v_edge br) (v_edge br)])
    (fheap k ++ [mkFace (next_f_id k) (Some ne)])
    (vertices k) (edges k ++ [ne]) (faces k ++ [nf])
    (next_v_id k) (next_e_id k + 1) (next_f_id k + 1).

Definition kef_fix (fa fb : option ptr) (r : Edge) : Edge :=
  let r1 := if bool_decide (f1 r = fb) then set_f1 fa r else r in
  if bool_decide (f2 r1 = fb) then set_f2 fa r1 else r1.

Definition sweep (fa fb : option ptr) (l : list ptr) (h : list Edge) : list Edge :=
  foldl (λ h p, alter (kef_fix fa fb) p h) h l.

Definition kef_state (k : WingedEdgeKernel) (e fa fb : ptr) : WingedEdgeKernel :=
  let es := filter (λ q, q ≠ e) (edges k) in
  mkKernel (vheap k) (sweep (Some fa) (Some fb) es (eheap k)) (fheap k)
    (vertices k) es (filter (λ q, q ≠ fb) (faces k))
    (next_v_id k) (next_e_id k) (next_f_id k).

Definition ptr_ok (n : nat) (o : option ptr) : Prop :=
  match o with Some p => p < n | None => True end.

Definition vertex_ok (k : WingedEdgeKernel) (v : Vertex) : Prop :=
  ptr_ok (length (eheap k)) (v_edge v).
Definition edge_ok (k : WingedEdgeKernel) (e : Edge) : Prop :=
  ptr_ok (length (vheap k)) (v1 e) ∧ ptr_ok (length (vheap k)) (v2 e) ∧
  ptr_ok (length (fheap k)) (f1 e) ∧ ptr_ok (length (fheap k)) (f2 e) ∧
  ptr_ok (length (eheap k)) (p1_f1 e) ∧ ptr_ok (length (eheap k)) (n1_f1 e) ∧
  ptr_ok (length (eheap k)) (p2_f2 e) ∧ ptr_ok (length (eheap k)) (n2_f2 e).
Definition face_ok (k : WingedEdgeKernel) (f : Face) : Prop :=
  ptr_ok (length (eheap k)) (f_edge f).

Definition wf (k : WingedEdgeKernel) : Prop :=
  Forall (λ p, p < length (vheap k)) (vertices k) ∧
  Forall (λ p, p < length (eheap k)) (edges k) ∧
  Forall (λ p, p < length (fheap k)) (faces k) ∧
  NoDup (vertices k) ∧ NoDup (edges k) ∧ NoDup (faces k) ∧
  Forall (vertex_ok k) (vheap k) ∧
  Forall (edge_ok k) (eheap k) ∧
  Forall (face_ok k) (fheap k).

#[global] Instance ptr_ok_dec n o : Decision (ptr_ok n o).
Proof. destruct o; simpl; apply _. Defined.
#[global] Instance vertex_ok_dec k v : Decision (vertex_ok k v).
Proof. unfold vertex_ok. apply _. Defined.
#[global] Instance edge_ok_dec k e : Decision (edge_ok k e).
Proof. unfold edge_ok. apply _. Defined.
#[global] Instance face_ok_dec k f : Decision (face_ok k f).
Proof. unfold face_ok. apply _. Defined.
#[global] Instance wf_dec k : Decision (wf k).
Proof. unfold wf. apply _. Defined.

(** States reached from the empty kernel by the operators, each called with
    handles of allocated objects. *)
Inductive reachable : WingedEdgeKernel → Prop :=
  | reach_empty : reachable empty
  | reach_mvsf k p v k' :
      reachable k → mvsf p k = (Ok v, k') → reachable k'
  | reach_mev k u p f e k' :
      reachable k → u < length (vheap k) → f < length (fheap k) →
      mev (Some u) p (Some f) k = (Ok e, k') → reachable k'
  | reach_mef k a b f e k' :
      reachable k → a < length (vheap k) → b < length (vheap k) → f < length (fheap k) →
      mef (Some a) (Some b) (Some f) k = (Ok e, k') → reachable k'
  | reach_kef k e f k' :
      reachable k → e < length (eheap k) →
      kef (Some e) k = (Ok f, k') → reachable k'
  | reach_kfmrh k h o k' :
      reachable k → h < length (fheap k) → o < length (fheap k) →
      kfmrh (Some h) (Some o) k = (Ok tt, k') → reachable k'.

(** The state after [mef] then [kef] on the edge it made: the pools and every
    record of the state before, with the dead edge and the dead face left in
    the heap and the two id counters advanced. *)
Definition roundtrip_state (k : WingedEdgeKernel) (a b f : ptr) (ar br : Vertex)
  : WingedEdgeKernel :=
  mkKernel (vheap k)
    (eheap k ++ [mkEdge (next_e_id k) (Some a) (Some b) (Some f) (Some (length (fheap k)))
                   (v_edge ar) (v_edge ar) (v_edge br) (v_edge br)])
    (fheap k ++ [mkFace (next_f_id k) (Some (length (eheap k)))])
    (vertices k) (edges k) (faces k)
    (next_v_id k) (next_e_id k + 1) (next_f_id k + 1).

(** The handles an entity holds: its neighbourhood in the adjacency graph. *)
Inductive handle := HVertex (p : ptr) | HEdge (p : ptr) | HFace (p : ptr).

Definition live (k : WingedEdgeKernel) (h : handle) : Prop :=
  match h with
  | HVertex p => p ∈ vertices k
  | HEdge p => p ∈ edges k
  | HFace p => p ∈ faces k
  end.

Definition some_handles (mk : ptr → handle) (l : list (option ptr)) : list handle :=
  omap (fmap mk) l.

Definition adjacency (k : WingedEdgeKernel) (h : handle) : option (list handle) :=
  match h with
  | HVertex p => (λ r, some_handles HEdge [v_edge r]) <$> vheap k !! p
  | HEdge p =>
      (λ r, some_handles HVertex [v1 r; v2 r] ++ some_handles HFace [f1 r; f2 r]
            ++ some_handles HEdge [p1_f1 r; n1_f1 r; p2_f2 r; n2_f2 r]) <$> eheap k !! p
  | HFace p => (λ r, some_handles HEdge [f_edge r]) <$> fheap k !! p
  end.

(** MVSF(0,0,0); MEV(v1,(1,0,0),f): one spur. *)
Definition spur : WingedEdgeKernel :=
  exec (mev (Some 0) (mkPoint3D 1 0 0) (Some 0)) (exec (mvsf (mkPoint3D 0 0 0)) empty).

(** ...; MEV(v2,(0.5,1,0),f): the open path v1-v2-v3 of the triangle scenario. *)
Definition open_triangle : WingedEdgeKernel :=
  exec (mev (Some 1) (mkPoint3D 0.5 1 0) (Some 0)) spur.

(** ...; MEF(v3,v1,f): the triangle of scenario 2. *)
Definition triangle : WingedEdgeKernel :=
  exec (mef (Some 2) (Some 0) (Some 0)) open_triangle.


(** Any edge of the pool with a face slot on [f]. *)
Definition refers_to (k : WingedEdgeKernel) (f : ptr) (e : ptr) : bool :=
  match eheap k !! e with
  | Some r => bool_decide (f1 r = Some f) || bool_decide (f2 r = Some f)
  | None => false
  end.





(** *** What a walk returns *)

Section Walks.
Variable k : WingedEdgeKernel.
Variable side : Edge → option (option ptr).






End Walks.

End KernelSpec.

(* ===================================================================== *)
(** ** Vocabulary of the statements about the Mesh facade *)
(* ===================================================================== *)

Module MeshSpec.
Import SketchyMesh.



(** [add_vertex] for each position, then [add_face] for each vertex list. *)
Definition build (ps : list Vec3) (fs : list (list (option ptr))) : Mesh :=
  foldl (λ m f, exec (add_face f) m) (foldl (λ m p, exec (add_vertex p) m) empty ps) fs.






(** Three faces made by [add_face]: (a, b, e), (b, c, d) and (a, b, c). *)
Definition three_faces : Mesh :=
  build [mkVec3 0 0 0; mkVec3 1 0 0; mkVec3 2 0 0; mkVec3 2 1 0; mkVec3 0 1 0]
        [[Some 0; Some 1; Some 4]; [Some 1; Some 2; Some 3]; [Some 0; Some 1; Some 2]].

End MeshSpec.

(* ===================================================================== *)
(** ** Properties of Vec3 *)
(* ===================================================================== *)

Module GeometryFacts.
Import Geometry.
Open Scope float_scope.

(** *** Binary64 facts read off the specification of the primitive operations *)

















End GeometryFacts.

(* ===================================================================== *)
(** ** Properties of the Euler operators *)
(* ===================================================================== *)

Module KernelFacts.
Import SketchyKernel KernelSpec.

(** *** Lists used as heaps *)

Lemma lookup_snoc_at {A} (l : list A) (x : A) n : n = length l → (l ++ [x]) !! n = Some x.
Proof. intros ->. by apply list_lookup_middle. Qed.

Lemma lookup_snoc_lt {A} (l : list A) (x : A) n : n < length l → (l ++ [x]) !! n = l !! n.
Proof. intros. by apply lookup_app_l. Qed.

Lemma alter_snoc_at {A} (f : A → A) (l : list A) (x : A) n :
  n = length l → alter f n (l ++ [x]) = l ++ [f x].
Proof.
  intros ->. replace (length l) with (length l + 0) by lia.
  by rewrite alter_app_r.
Qed.

Lemma alter_snoc_lt {A} (f : A → A) (l : list A) (x : A) n :
  n < length l → alter f n (l ++ [x]) = alter f n l ++ [x].
Proof. intros. by apply alter_app_l. Qed.

Lemma alter_fixed {A} (f : A → A) (l : list A) n :
  (∀ x, l !! n = Some x → f x = x) → alter f n l = l.
Proof.
  intros Hf. apply list_eq. intros i.
  destruct (decide (i = n)) as [->|Hne].
  - rewrite list_lookup_alter_eq. destruct (l !! n) eqn:E; simpl; [f_equal; auto | done].
  - by rewrite list_lookup_alter_ne.
Qed.

Lemma filter_ne_fresh (l : list nat) (p : nat) : p ∉ l → filter (λ q, q ≠ p) l = l.
Proof.
  induction l as [|a l IH]; intros Hp; [done|].
  rewrite filter_cons. apply not_elem_of_cons in Hp as [Hne Hp].
  rewrite decide_True by done. by rewrite IH.
Qed.

Lemma filter_ne_snoc (l : list nat) (p : nat) : p ∉ l → filter (λ q, q ≠ p) (l ++ [p]) = l.
Proof.
  intros Hp. rewrite filter_app, filter_ne_fresh by done.
  rewrite filter_cons, decide_False by (intros H; by apply H).
  by rewrite filter_nil, app_nil_r.
Qed.

Lemma filter_ne_length (l : list nat) (p : nat) :
  NoDup l → p ∈ l → length (filter (λ q, q ≠ p) l) + 1 = length l.
Proof.
  induction l as [|a l IH]; intros Hnd Hin; [by apply elem_of_nil in Hin|].
  apply NoDup_cons in Hnd as [Ha Hnd]. rewrite filter_cons.
  destruct (decide (a = p)) as [->|Hne].
  - rewrite decide_False by (intros H; by apply H).
    rewrite filter_ne_fresh by done. simpl. lia.
  - rewrite decide_True by done. simpl.
    apply elem_of_cons in Hin as [->|Hin]; [done|]. specialize (IH Hnd Hin). lia.
Qed.

Lemma bounded_fresh (l : list nat) (n : nat) : Forall (λ p, p < n) l → n ∉ l.
Proof.
  intros Hall Hin. rewrite Forall_forall in Hall. specialize (Hall _ Hin). lia.
Qed.

(** *** Symbolic execution of the operators *)

Ltac unfold_ops :=
  unfold deref_edge, assign_edge, kef_rewrite in *;
  unfold mbind, M_bind, mret, M_ret, bind, ret, throw, fault, when,
    fresh_v_id, fresh_e_id, fresh_f_id, make_vertex, make_edge, make_face,
    read_vertex, read_edge, read_face, write_vertex, write_edge, write_face,
    push_vertex, push_edge, push_face, erase_edge, erase_face,
    get_edges, with_vheap, with_eheap, with_fheap, with_vertices, with_edges, with_faces in *.

Ltac len := rewrite ?length_alter, ?length_app; simpl; lia.
Ltac sym1 :=
  first [ rewrite lookup_snoc_at by len
        | rewrite alter_snoc_at by len
        | rewrite lookup_snoc_lt by len
        | rewrite alter_snoc_lt by len ].
Ltac sym := simpl; repeat (sym1; simpl).

Lemma mev_run k fv p onf fvr fr per :
  vheap k !! fv = Some fvr →
  fheap k !! onf = Some fr →
  (∀ pe, v_edge fvr = Some pe → eheap k !! pe = Some per) →
  mev (Some fv) p (Some onf) k = (Ok (length (eheap k)), mev_state k fv p onf fvr fr per).
Proof.
  intros Hv Hf He.
  assert (Hfv : fv < length (vheap k)) by (by eapply lookup_lt_Some).
  assert (Hof : onf < length (fheap k)) by (by eapply lookup_lt_Some).
  unfold mev, mev_state. unfold_ops. sym.
  rewrite Hv. sym.
  destruct (v_edge fvr) as [pe|] eqn:Hpe; sym.
  - assert (Hpe' : eheap k !! pe = Some per) by auto.
    assert (Hlt : pe < length (eheap k)) by (by eapply lookup_lt_Some).
    rewrite Hf; sym.
    destruct (f_edge fr) as [fe|] eqn:Hfe; sym.
    + rewrite Hv, Hpe. sym.
      rewrite (bool_decide_eq_false_2 (Some pe = Some (length (eheap k)))) by (intros [=]; lia).
      sym. rewrite Hpe'. sym. rewrite Hpe'. sym.
      destruct (bool_decide (v2 per = Some fv)); sym; rewrite Hpe'; sym; reflexivity.
    + rewrite Hf. sym. rewrite Hv, Hpe. sym.
      rewrite (bool_decide_eq_false_2 (Some pe = Some (length (eheap k)))) by (intros [=]; lia).
      sym. rewrite Hpe'. sym. rewrite Hpe'. sym.
      destruct (bool_decide (v2 per = Some fv)); sym; rewrite Hpe'; sym; reflexivity.
  - rewrite Hv. sym. rewrite Hf. sym.
    destruct (f_edge fr) as [fe|] eqn:Hfe; sym.
    + rewrite list_lookup_alter_eq, Hv. sym.
      rewrite bool_decide_eq_true_2 by done. sym. reflexivity.
    + rewrite Hf. sym. rewrite list_lookup_alter_eq, Hv. sym.
      rewrite bool_decide_eq_true_2 by done. sym. reflexivity.
Qed.

Lemma mef_run k a b f ar br :
  a ≠ b →
  vheap k !! a = Some ar →
  vheap k !! b = Some br →
  mef (Some a) (Some b) (Some f) k = (Ok (length (eheap k)), mef_state k a b f ar br).
Proof.
  intros Hab Ha Hb.
  unfold mef, mef_state. rewrite bool_decide_eq_false_2 by done.
  unfold_ops. sym. rewrite Ha. sym.
  destruct (v_edge ar) as [ea|] eqn:Hea; sym; rewrite Hb; sym;
    destruct (v_edge br) as [eb|] eqn:Heb; sym; reflexivity.
Qed.

Lemma kef_fix_idem fa fb r : kef_fix fa fb (kef_fix fa fb r) = kef_fix fa fb r.
Proof.
  unfold kef_fix. destruct r as [i a b x y p1 n1 p2 n2]. simpl.
  repeat (case_bool_decide; simpl in *; simplify_eq); try done.
Qed.

Lemma kef_rewrite_run fa fb e k r :
  eheap k !! e = Some r →
  kef_rewrite fa fb e k = (Ok tt, with_eheap (alter (kef_fix fa fb) e (eheap k)) k).
Proof.
  intros He. destruct k as [vh eh fh vs es fs i1 i2 i3]. simpl in He.
  unfold_ops. simpl. rewrite He. simpl.
  destruct (bool_decide (f1 r = fb)) eqn:E1; simpl.
  - rewrite He. simpl. rewrite (list_lookup_alter_eq _ eh e), He. simpl.
    destruct (bool_decide (f2 r = fb)) eqn:E2; simpl.
    + rewrite (list_lookup_alter_eq _ eh e), He. simpl. do 2 f_equal.
      rewrite list_alter_alter_eq. apply list_alter_ext; [|done].
      intros x Hx. unfold kef_fix. simplify_eq. rewrite E1. simpl. by rewrite E2.
    + do 2 f_equal. apply list_alter_ext; [|done].
      intros x Hx. unfold kef_fix. simplify_eq. rewrite E1. simpl. by rewrite E2.
  - rewrite He. simpl.
    destruct (bool_decide (f2 r = fb)) eqn:E2; simpl.
    + rewrite He. simpl. do 2 f_equal. apply list_alter_ext; [|done].
      intros x Hx. unfold kef_fix. simplify_eq. by rewrite E1, E2.
    + do 2 f_equal. symmetry. apply alter_fixed.
      intros x Hx. unfold kef_fix. simplify_eq. by rewrite E1, E2.
Qed.

Lemma for_each_kef fa fb l :
  ∀ k, Forall (λ p, p < length (eheap k)) l →
    for_each l (kef_rewrite fa fb) k = (Ok tt, with_eheap (sweep fa fb l (eheap k)) k).
Proof.
  induction l as [|p l IH]; intros k Hall.
  - destruct k; reflexivity.
  - apply Forall_cons in Hall as [Hp Hall].
    destruct (lookup_lt_is_Some_2 _ _ Hp) as [r Hr].
    simpl. unfold mbind, M_bind, bind at 1. rewrite (kef_rewrite_run _ _ _ _ r) by done.
    rewrite IH by (simpl; by rewrite length_alter). by destruct k.
Qed.

Lemma sweep_length fa fb l : ∀ h, length (sweep fa fb l h) = length h.
Proof. induction l as [|p l IH]; intros h; simpl; [done|]. by rewrite IH, length_alter. Qed.

Ltac mem_cons :=
  match goal with
  | H : ¬ (_ ∈ _ :: _) |- _ => apply H; rewrite elem_of_cons; tauto
  | H : _ ∈ _ :: _ |- _ => apply elem_of_cons in H as [?|?]; [congruence|done]
  end.

Lemma sweep_lookup fa fb l : ∀ h p,
  sweep fa fb l h !! p = (if bool_decide (p ∈ l) then kef_fix fa fb else id) <$> h !! p.
Proof.
  induction l as [|q l IH]; intros h p; simpl.
  - by destruct (h !! p).
  - rewrite IH. destruct (decide (q = p)) as [->|Hne].
    + rewrite (list_lookup_alter_eq _ h p).
      destruct (h !! p) as [r|]; simpl; [|done].
      repeat case_bool_decide; simpl; try done;
        [by rewrite kef_fix_idem | exfalso; mem_cons ..].
    + rewrite list_lookup_alter_ne by done.
      destruct (h !! p) as [r|]; simpl; [|done].
      repeat case_bool_decide; simpl; try done; exfalso; mem_cons.
Qed.

Lemma Forall_filter_keep {A} (P Q : A → Prop) `{∀ x, Decision (Q x)} (l : list A) :
  Forall P l → Forall P (filter Q l).
Proof.
  rewrite !Forall_forall. intros Hall x Hx. apply list_elem_of_filter in Hx as [_ Hx]. auto.
Qed.

Lemma kef_run k e er fa fb :
  eheap k !! e = Some er → f1 er = Some fa → f2 er = Some fb →
  Forall (λ p, p < length (eheap k)) (edges k) →
  kef (Some e) k = (Ok (Some fa), kef_state k e fa fb).
Proof.
  intros He H1 H2 Hall. unfold kef, kef_state.
  unfold mbind, M_bind, bind at 1. unfold read_edge at 1. rewrite He, H1, H2. simpl.
  unfold mbind, M_bind, bind, erase_edge, get_edges, with_edges. simpl.
  rewrite for_each_kef by (simpl; by apply Forall_filter_keep).
  reflexivity.
Qed.

(** *** Well-formed states: memory safety of the heap and pools without repetition *)

Lemma wf_vertex k u : wf k → u ∈ vertices k → ∃ r, vheap k !! u = Some r ∧ vertex_ok k r.
Proof.
  intros (Hv & _ & _ & _ & _ & _ & Hvr & _) Hu.
  rewrite Forall_forall in Hv. apply Hv in Hu.
  destruct (lookup_lt_is_Some_2 _ _ Hu) as [r Hr]. exists r. split; [done|].
  rewrite Forall_forall in Hvr. apply Hvr. by eapply list_elem_of_lookup_2.
Qed.

Lemma wf_edge k e : wf k → e ∈ edges k → ∃ r, eheap k !! e = Some r ∧ edge_ok k r.
Proof.
  intros (_ & He & _ & _ & _ & _ & _ & Her & _) Hu.
  rewrite Forall_forall in He. apply He in Hu.
  destruct (lookup_lt_is_Some_2 _ _ Hu) as [r Hr]. exists r. split; [done|].
  rewrite Forall_forall in Her. apply Her. by eapply list_elem_of_lookup_2.
Qed.

Lemma wf_face k f : wf k → f ∈ faces k → ∃ r, fheap k !! f = Some r ∧ face_ok k r.
Proof.
  intros (_ & _ & Hf & _ & _ & _ & _ & _ & Hfr) Hu.
  rewrite Forall_forall in Hf. apply Hf in Hu.
  destruct (lookup_lt_is_Some_2 _ _ Hu) as [r Hr]. exists r. split; [done|].
  rewrite Forall_forall in Hfr. apply Hfr. by eapply list_elem_of_lookup_2.
Qed.

(** Success of [mev] on live handles, with the state written out. *)
Lemma mev_live k u p f :
  wf k → u ∈ vertices k → f ∈ faces k →
  ∃ fvr fr per, vheap k !! u = Some fvr ∧ fheap k !! f = Some fr ∧
    (∀ pe, v_edge fvr = Some pe → eheap k !! pe = Some per ∧ pe < length (eheap k)) ∧
    mev (Some u) p (Some f) k = (Ok (length (eheap k)), mev_state k u p f fvr fr per).
Proof.
  intros Hwf Hu Hf.
  destruct (wf_vertex _ _ Hwf Hu) as (fvr & Hfvr & Hok).
  destruct (wf_face _ _ Hwf Hf) as (fr & Hfr & _).
  unfold vertex_ok in Hok.
  destruct (v_edge fvr) as [pe|] eqn:Hpe; simpl in Hok.
  - destruct (lookup_lt_is_Some_2 _ _ Hok) as [per Hper].
    exists fvr, fr, per. split; [done|]. split; [done|]. split.
    + intros ? ?. by simplify_eq.
    + apply mev_run; try done. intros ? ?. by simplify_eq.
  - exists fvr, fr, (Edge_new 0). split; [done|]. split; [done|]. split.
    + intros ? ?. by simplify_eq.
    + apply mev_run; try done. intros ? ?. by simplify_eq.
Qed.

(** C6.  MEV on a live vertex [u] and a live face [f] makes exactly one vertex
    [w] at position [p] and exactly one edge [e] from [u] to [w]; both face
    slots of [e] are [f]; the counts change by V+1, E+1, F+0; the handle
    returned is that of [e], and [w] is read from it as [e.v2]. *)
Theorem C6_mev_makes_edge_and_vertex k u p f :
  wf k → u ∈ vertices k → f ∈ faces k →
  ∃ e w k',
    mev (Some u) p (Some f) k = (Ok e, k') ∧
    vertices k' = vertices k ++ [w] ∧ (w ∉ vertices k) ∧
    edges k' = edges k ++ [e] ∧ (e ∉ edges k) ∧
    faces k' = faces k ∧
    getVertexCount k' = S (getVertexCount k) ∧
    getEdgeCount k' = S (getEdgeCount k) ∧
    getFaceCount k' = getFaceCount k ∧
    (∃ wr, vheap k' !! w = Some wr ∧ coords wr = p) ∧
    (∃ er, eheap k' !! e = Some er ∧
           v1 er = Some u ∧ v2 er = Some w ∧ f1 er = Some f ∧ f2 er = Some f).
Proof.
  intros Hwf Hu Hf.
  destruct (mev_live k u p f Hwf Hu Hf) as (fvr & fr & per & Hfvr & Hfr & Hpe & Hrun).
  destruct Hwf as (Hv & He & _).
  exists (length (eheap k)), (length (vheap k)), (mev_state k u p f fvr fr per).
  split; [done|]. unfold getVertexCount, getEdgeCount, getFaceCount, mev_state. simpl.
  repeat split; try done.
  - by apply bounded_fresh.
  - by apply bounded_fresh.
  - rewrite length_app. simpl. lia.
  - rewrite length_app. simpl. lia.
  - eexists. split; [apply lookup_snoc_at; case_bool_decide; by rewrite ?length_alter|done].
  - destruct (v_edge fvr) as [pe|].
    + eexists. split; [apply lookup_snoc_at; by rewrite length_alter|done].
    + eexists. split; [by apply lookup_snoc_at|done].
Qed.

Lemma kef_fix_fields fa fb r :
  f1 (kef_fix fa fb r) = (if bool_decide (f1 r = fb) then fa else f1 r) ∧
  f2 (kef_fix fa fb r) = (if bool_decide (f2 r = fb) then fa else f2 r) ∧
  e_id (kef_fix fa fb r) = e_id r ∧
  v1 (kef_fix fa fb r) = v1 r ∧ v2 (kef_fix fa fb r) = v2 r ∧
  p1_f1 (kef_fix fa fb r) = p1_f1 r ∧ n1_f1 (kef_fix fa fb r) = n1_f1 r ∧
  p2_f2 (kef_fix fa fb r) = p2_f2 r ∧ n2_f2 (kef_fix fa fb r) = n2_f2 r.
Proof.
  unfold kef_fix. destruct r as [i a b x y p1 n1 p2 n2]. simpl.
  destruct (bool_decide (x = fb)); simpl; destruct (bool_decide (y = fb)); simpl; done.
Qed.

(** C2.  KEF on a live edge [e] whose two face slots hold distinct live faces
    [fa = e.f1] and [fb = e.f2] removes [e] from the edge pool, rewrites every
    face slot of a remaining edge that held [fb] to [fa] (and nothing else of
    those edges), returns [fa], removes [fb], and changes the counts by
    E-1, F-1, V+0. *)
Theorem C2_kef_merges_faces k e er fa fb :
  wf k → e ∈ edges k → eheap k !! e = Some er →
  f1 er = Some fa → f2 er = Some fb → fa ≠ fb → fb ∈ faces k →
  ∃ k',
    kef (Some e) k = (Ok (Some fa), k') ∧
    edges k' = filter (λ q, q ≠ e) (edges k) ∧ (e ∉ edges k') ∧
    faces k' = filter (λ q, q ≠ fb) (faces k) ∧ (fb ∉ faces k') ∧
    vertices k' = vertices k ∧
    S (getEdgeCount k') = getEdgeCount k ∧
    S (getFaceCount k') = getFaceCount k ∧
    getVertexCount k' = getVertexCount k ∧
    (∀ e' r, e' ∈ edges k' → eheap k !! e' = Some r →
       ∃ r', eheap k' !! e' = Some r' ∧
         f1 r' = (if bool_decide (f1 r = Some fb) then Some fa else f1 r) ∧
         f2 r' = (if bool_decide (f2 r = Some fb) then Some fa else f2 r) ∧
         f1 r' ≠ Some fb ∧ f2 r' ≠ Some fb ∧
         e_id r' = e_id r ∧ v1 r' = v1 r ∧ v2 r' = v2 r ∧
         p1_f1 r' = p1_f1 r ∧ n1_f1 r' = n1_f1 r ∧
         p2_f2 r' = p2_f2 r ∧ n2_f2 r' = n2_f2 r).
Proof.
  intros Hwf He Her H1 H2 Hne Hfb.
  destruct Hwf as (_ & Hes & _ & _ & Hnd & Hndf & _).
  exists (kef_state k e fa fb). split; [by eapply kef_run|].
  unfold kef_state, getEdgeCount, getFaceCount, getVertexCount. simpl.
  split; [done|]. split; [rewrite list_elem_of_filter; by intros [? _]|].
  split; [done|]. split; [rewrite list_elem_of_filter; by intros [? _]|].
  split; [done|]. split; [rewrite <- (filter_ne_length (edges k) e) by done; lia|].
  split; [rewrite <- (filter_ne_length (faces k) fb) by done; lia|]. split; [done|].
  intros e' r He' Hr. exists (kef_fix (Some fa) (Some fb) r).
  rewrite sweep_lookup, Hr, bool_decide_eq_true_2 by done. simpl.
  destruct (kef_fix_fields (Some fa) (Some fb) r)
    as (E1 & E2 & E3 & E4 & E5 & E6 & E7 & E8 & E9).
  rewrite E1, E2. clear E1 E2. repeat split; try done; case_bool_decide; congruence.
Qed.

Section WalkFacts.
Variable k : WingedEdgeKernel.
Variable side : Edge → option (option ptr).





End WalkFacts.

(** *** MEF followed by KEF *)

(** The walk only looks at the edge records it reaches and at the number of
    edges in the pool: objects added to the heap behind its back change nothing. *)
Lemma walk_frame k k2 side ext fuel :
  eheap k2 = eheap k ++ ext →
  length (edges k2) = length (edges k) →
  (∀ p r q, eheap k !! p = Some r → side r = Some (Some q) → q < length (eheap k)) →
  ∀ start current visited result,
    current < length (eheap k) →
    walk k2 side fuel start current visited result
    = walk k side fuel start current visited result.
Proof.
  intros Hheap Hlen Hclosed.
  induction fuel as [|fuel IH]; intros start current visited result Hcur; [done|].
  simpl. rewrite Hheap, lookup_app_l, Hlen by done.
  destruct (eheap k !! current) as [ce|] eqn:Hce; [|done].
  destruct (bool_decide (e_id ce ∈ visited)); [done|].
  destruct (side ce) as [[next|]|] eqn:Hside; try done.
  destruct (bool_decide (length (edges k) < size ({[e_id ce]} ∪ visited))); [done|].
  destruct (bool_decide (next = start)); [done|].
  apply IH. by eapply Hclosed.
Qed.

Lemma wf_edge_record k p r : wf k → eheap k !! p = Some r → edge_ok k r.
Proof.
  intros (_ & _ & _ & _ & _ & _ & _ & Her & _) Hp.
  rewrite Forall_forall in Her. apply Her. by eapply list_elem_of_lookup_2.
Qed.

Lemma vertex_side_closed k v p r q :
  wf k → eheap k !! p = Some r → vertex_side v r = Some (Some q) → q < length (eheap k).
Proof.
  intros Hwf Hp Hs. apply (wf_edge_record _ _ _ Hwf) in Hp.
  destruct Hp as (_ & _ & _ & _ & _ & Hn1 & _ & Hn2).
  unfold vertex_side in Hs. repeat case_bool_decide; simplify_eq.
  - by rewrite Hs in Hn1.
  - by rewrite Hs in Hn2.
Qed.

Lemma face_side_closed k f p r q :
  wf k → eheap k !! p = Some r → face_side f r = Some (Some q) → q < length (eheap k).
Proof.
  intros Hwf Hp Hs. apply (wf_edge_record _ _ _ Hwf) in Hp.
  destruct Hp as (_ & _ & _ & _ & _ & Hn1 & _ & Hn2).
  unfold face_side in Hs. repeat case_bool_decide; simplify_eq.
  - by rewrite Hs in Hn1.
  - by rewrite Hs in Hn2.
Qed.

Lemma kef_fix_id fa fb r : f1 r ≠ fb → f2 r ≠ fb → kef_fix fa fb r = r.
Proof.
  intros H1 H2. unfold kef_fix.
  rewrite (bool_decide_eq_false_2 (f1 r = fb)) by done.
  by rewrite (bool_decide_eq_false_2 (f2 r = fb)) by done.
Qed.

Lemma sweep_fresh_face k f es h :
  wf k → es = edges k →
  (∀ p, p < length (eheap k) → h !! p = eheap k !! p) →
  sweep (Some f) (Some (length (fheap k))) es h = h.
Proof.
  intros Hwf -> Hh. apply list_eq. intros p. rewrite sweep_lookup.
  case_bool_decide as Hin; [|by destruct (h !! p)].
  destruct (wf_edge _ _ Hwf Hin) as (r & Hr & Hok).
  rewrite Hh by (by eapply lookup_lt_Some). rewrite Hr. simpl. f_equal.
  destruct Hok as (_ & _ & H1 & H2 & _).
  unfold ptr_ok in *. apply kef_fix_id.
  - intros E. rewrite E in H1. lia.
  - intros E. rewrite E in H2. lia.
Qed.

Lemma mef_kef_run k a b f ar br :
  wf k → a ≠ b →
  vheap k !! a = Some ar → vheap k !! b = Some br →
  mef (Some a) (Some b) (Some f) k = (Ok (length (eheap k)), mef_state k a b f ar br) ∧
  kef (Some (length (eheap k))) (mef_state k a b f ar br)
    = (Ok (Some f), roundtrip_state k a b f ar br).
Proof.
  intros Hwf Hab Ha Hb. split; [by apply mef_run|].
  pose proof Hwf as (_ & Hes & Hfs & _).
  erewrite kef_run.
  - f_equal. unfold kef_state, roundtrip_state, mef_state. simpl.
    rewrite !filter_ne_snoc by (by apply bounded_fresh).
    f_equal. apply sweep_fresh_face; [done|done|].
    intros p Hp. by rewrite lookup_snoc_lt.
  - simpl. by apply lookup_snoc_at.
  - done.
  - done.
  - simpl. rewrite length_app. simpl. apply Forall_app. split.
    + eapply Forall_impl; [exact Hes|]. simpl. intros. lia.
    + apply Forall_singleton. lia.
Qed.

(** C3.  A MEF on live handles with distinct vertices, followed at once by
    KEF on the edge it returned, restores the three counts and the three
    pools, and leaves every surviving entity with the record, hence the
    adjacency set, it had before the MEF; the two navigation queries answer as
    before on every surviving vertex and face. *)
Theorem C3_mef_kef_roundtrip k a b f :
  wf k → a ∈ vertices k → b ∈ vertices k → f ∈ faces k → a ≠ b →
  ∃ e k1 k2,
    mef (Some a) (Some b) (Some f) k = (Ok e, k1) ∧
    kef (Some e) k1 = (Ok (Some f), k2) ∧
    getVertexCount k2 = getVertexCount k ∧
    getEdgeCount k2 = getEdgeCount k ∧
    getFaceCount k2 = getFaceCount k ∧
    vertices k2 = vertices k ∧ edges k2 = edges k ∧ faces k2 = faces k ∧
    (∀ h, live k h → live k2 h ∧ adjacency k2 h = adjacency k h) ∧
    (∀ v, v ∈ vertices k → getIncidentEdges k2 (Some v) = getIncidentEdges k (Some v)) ∧
    (∀ g, g ∈ faces k → getFaceBoundary k2 (Some g) = getFaceBoundary k (Some g)).
Proof.
  intros Hwf Ha Hb Hf Hab.
  destruct (wf_vertex _ _ Hwf Ha) as (ar & Har & _).
  destruct (wf_vertex _ _ Hwf Hb) as (br & Hbr & _).
  destruct (mef_kef_run k a b f ar br Hwf Hab Har Hbr) as [Hmef Hkef].
  exists (length (eheap k)), (mef_state k a b f ar br), (roundtrip_state k a b f ar br).
  do 8 (split; [done|]).
  split; [|split].
  - intros [p|p|p] Hp; simpl in *; (split; [done|]).
    + done.
    + destruct (wf_edge _ _ Hwf Hp) as (r & Hr & _).
      rewrite lookup_snoc_lt; [done|by eapply lookup_lt_Some].
    + destruct (wf_face _ _ Hwf Hp) as (r & Hr & _).
      rewrite lookup_snoc_lt; [done|by eapply lookup_lt_Some].
  - intros v Hv. unfold getIncidentEdges, getIncidentEdges_fuel, enough. simpl.
    destruct (wf_vertex _ _ Hwf Hv) as (r & Hr & Hok). rewrite Hr.
    unfold vertex_ok in Hok. destruct (v_edge r) as [s|]; [|done]. simpl in Hok.
    f_equal. eapply walk_frame; [done|done| |done].
    intros ????. by eapply vertex_side_closed.
  - intros g Hg. unfold getFaceBoundary, getFaceBoundary_fuel, enough. simpl.
    destruct (wf_face _ _ Hwf Hg) as (r & Hr & Hok).
    rewrite lookup_snoc_lt by (by eapply lookup_lt_Some). rewrite Hr.
    unfold face_ok in Hok. destruct (f_edge r) as [s|]; [|done]. simpl in Hok.
    f_equal. eapply walk_frame; [done|done| |done].
    intros ????. by eapply face_side_closed.
Qed.

(** *** Scenarios of the specification, built by the operators *)

Ltac by_compute := refine (bool_decide_unpack _ _); vm_compute; exact I.

Lemma wf_spur : wf spur.
Proof. by_compute. Qed.
Lemma wf_open_triangle : wf open_triangle.
Proof. by_compute. Qed.
Lemma wf_triangle : wf triangle.
Proof. by_compute. Qed.

(** *** Every state the operators produce is well formed *)

Lemma ptr_ok_mono n n' o : n ≤ n' → ptr_ok n o → ptr_ok n' o.
Proof. destruct o; simpl; [lia|done]. Qed.

Lemma vertex_ok_mono k k' r :
  length (eheap k) ≤ length (eheap k') → vertex_ok k r → vertex_ok k' r.
Proof. unfold vertex_ok. intros. by eapply ptr_ok_mono. Qed.

Lemma face_ok_mono k k' r :
  length (eheap k) ≤ length (eheap k') → face_ok k r → face_ok k' r.
Proof. unfold face_ok. intros. by eapply ptr_ok_mono. Qed.

Lemma edge_ok_mono k k' r :
  length (vheap k) ≤ length (vheap k') → length (eheap k) ≤ length (eheap k') →
  length (fheap k) ≤ length (fheap k') → edge_ok k r → edge_ok k' r.
Proof.
  unfold edge_ok. intros Hv He Hf (?&?&?&?&?&?&?&?).
  repeat split; by eapply ptr_ok_mono.
Qed.

Lemma wf_empty : wf empty.
Proof. by_compute. Qed.

Lemma Forall_lt_mono (l : list ptr) n n' :
  n ≤ n' → Forall (λ p, p < n) l → Forall (λ p, p < n') l.
Proof. intros Hle H. eapply Forall_impl; [exact H|]. simpl. intros. lia. Qed.

Lemma Forall_lt_snoc (l : list ptr) n :
  Forall (λ p, p < n) l → Forall (λ p, p < S n) (l ++ [n]).
Proof.
  intros H. apply Forall_app. split; [by eapply Forall_lt_mono; [|done]; lia|].
  apply Forall_singleton. lia.
Qed.

Lemma NoDup_snoc_fresh (l : list ptr) n :
  Forall (λ p, p < n) l → NoDup l → NoDup (l ++ [n]).
Proof.
  intros Hall Hnd. apply NoDup_app. split; [done|]. split; [|apply NoDup_singleton].
  intros x Hx Hx'. apply list_elem_of_singleton in Hx'. subst.
  rewrite Forall_forall in Hall. apply Hall in Hx. lia.
Qed.

Lemma wf_mvsf k p v k' : wf k → mvsf p k = (Ok v, k') → wf k'.
Proof.
  intros (Hv & He & Hf & Hnv & Hne & Hnf & Hvh & Heh & Hfh) Hrun.
  unfold mvsf in Hrun. unfold_ops. simpl in Hrun. simplify_eq.
  unfold wf. simpl. rewrite !length_app. simpl. rewrite !Nat.add_1_r.
  split; [by apply Forall_lt_snoc|]. split; [done|]. split; [by apply Forall_lt_snoc|].
  split; [by apply NoDup_snoc_fresh|]. split; [done|]. split; [by apply NoDup_snoc_fresh|].
  split; [|split].
  - apply Forall_app. split; [|by apply Forall_singleton].
    eapply Forall_impl; [exact Hvh|]. done.
  - eapply Forall_impl; [exact Heh|]. intros r. apply edge_ok_mono; simpl; rewrite ?length_app; simpl; lia.
  - apply Forall_app. split; [|by apply Forall_singleton].
    eapply Forall_impl; [exact Hfh|]. done.
Qed.

Lemma wf_vertex_record k p r : wf k → vheap k !! p = Some r → vertex_ok k r.
Proof.
  intros (_ & _ & _ & _ & _ & _ & Hvh & _) Hp.
  rewrite Forall_forall in Hvh. apply Hvh. by eapply list_elem_of_lookup_2.
Qed.


Lemma mev_state_lengths k u p f fvr fr per :
  length (vheap (mev_state k u p f fvr fr per)) = S (length (vheap k)) ∧
  length (eheap (mev_state k u p f fvr fr per)) = S (length (eheap k)) ∧
  length (fheap (mev_state k u p f fvr fr per)) = length (fheap k).
Proof.
  unfold mev_state. simpl. split; [|split].
  - case_bool_decide; rewrite length_app, ?length_alter; simpl; lia.
  - destruct (v_edge fvr); rewrite length_app, ?length_alter; simpl; lia.
  - case_bool_decide; rewrite ?length_alter; lia.
Qed.

Lemma wf_mev_state k u p f fvr fr per :
  wf k → vheap k !! u = Some fvr → fheap k !! f = Some fr →
  (∀ pe, v_edge fvr = Some pe → eheap k !! pe = Some per) →
  wf (mev_state k u p f fvr fr per).
Proof.
  intros Hwf Hu Hf Hpe.
  destruct (mev_state_lengths k u p f fvr fr per) as (Lv & Le & Lf).
  pose proof (lookup_lt_Some _ _ _ Hu) as Hu'.
  pose proof (lookup_lt_Some _ _ _ Hf) as Hf'.
  destruct Hwf as (Hv & He & Hfs & Hnv & Hne & Hnf & Hvh & Heh & Hfh).
  unfold wf, vertex_ok, edge_ok, face_ok. rewrite Lv, Le, Lf.
  unfold mev_state. simpl.
  split; [by apply Forall_lt_snoc|]. split; [by apply Forall_lt_snoc|]. split; [done|].
  split; [by apply NoDup_snoc_fresh|]. split; [by apply NoDup_snoc_fresh|]. split; [done|].
  assert (Hvh' : Forall (λ v, ptr_ok (S (length (eheap k))) (v_edge v)) (vheap k)).
  { eapply Forall_impl; [exact Hvh|]. intros r. unfold vertex_ok. apply ptr_ok_mono. lia. }
  assert (Hfh' : Forall (λ v, ptr_ok (S (length (eheap k))) (f_edge v)) (fheap k)).
  { eapply Forall_impl; [exact Hfh|]. intros r. unfold face_ok. apply ptr_ok_mono. lia. }
  assert (Heh' : Forall (λ e,
     ptr_ok (S (length (vheap k))) (v1 e) ∧ ptr_ok (S (length (vheap k))) (v2 e) ∧
     ptr_ok (length (fheap k)) (f1 e) ∧ ptr_ok (length (fheap k)) (f2 e) ∧
     ptr_ok (S (length (eheap k))) (p1_f1 e) ∧ ptr_ok (S (length (eheap k))) (n1_f1 e) ∧
     ptr_ok (S (length (eheap k))) (p2_f2 e) ∧ ptr_ok (S (length (eheap k))) (n2_f2 e)) (eheap k)).
  { eapply Forall_impl; [exact Heh|]. intros r (?&?&?&?&?&?&?&?).
    repeat split; try done; eapply ptr_ok_mono; try eassumption; lia. }
  split; [|split].
  - apply Forall_app. split; [|apply Forall_singleton; simpl; lia].
    case_bool_decide; [|done]. apply Forall_alter; [done|]. intros; simpl; lia.
  - destruct (v_edge fvr) as [pe|] eqn:Hv_edge.
    + specialize (Hpe pe eq_refl).
      assert (Hper : edge_ok k per).
      { rewrite Forall_forall in Heh. apply Heh. by eapply list_elem_of_lookup_2. }
      destruct Hper as (_&_&_&_&_&Hn1&_).
      apply Forall_app. split.
      * apply Forall_alter; [done|]. intros r _ (?&?&?&?&?&?&?&?).
        case_bool_decide; simpl; repeat split; try done; lia.
      * apply Forall_singleton. simpl. apply lookup_lt_Some in Hpe.
        repeat split; try lia. eapply ptr_ok_mono; [|exact Hn1]. lia.
    + apply Forall_app. split; [done|]. apply Forall_singleton. simpl. repeat split; lia.
  - case_bool_decide; [|done]. apply Forall_alter; [done|]. intros; simpl; lia.
Qed.

Lemma wf_mev k u p f e k' :
  wf k → u < length (vheap k) → f < length (fheap k) →
  mev (Some u) p (Some f) k = (Ok e, k') → wf k'.
Proof.
  intros Hwf Hu Hf Hrun.
  destruct (lookup_lt_is_Some_2 _ _ Hu) as [fvr Hfvr].
  destruct (lookup_lt_is_Some_2 _ _ Hf) as [fr Hfr].
  pose proof (wf_vertex_record _ _ _ Hwf Hfvr) as Hok. unfold vertex_ok in Hok.
  assert (∃ per, ∀ pe, v_edge fvr = Some pe → eheap k !! pe = Some per) as [per Hper].
  { destruct (v_edge fvr) as [pe|]; simpl in Hok.
    - destruct (lookup_lt_is_Some_2 _ _ Hok) as [per Hper]. exists per. by intros ? [= <-].
    - exists (Edge_new 0). done. }
  rewrite (mev_run k u p f fvr fr per) in Hrun by done. simplify_eq.
  by apply wf_mev_state.
Qed.

Lemma wf_mef k a b f e k' :
  wf k → a < length (vheap k) → b < length (vheap k) → f < length (fheap k) →
  mef (Some a) (Some b) (Some f) k = (Ok e, k') → wf k'.
Proof.
  intros Hwf Ha Hb Hf Hrun.
  destruct (decide (a = b)) as [->|Hab].
  { unfold mef in Hrun. rewrite bool_decide_eq_true_2 in Hrun by done. discriminate. }
  destruct (lookup_lt_is_Some_2 _ _ Ha) as [ar Har].
  destruct (lookup_lt_is_Some_2 _ _ Hb) as [br Hbr].
  rewrite (mef_run k a b f ar br) in Hrun by done. simplify_eq.
  pose proof (wf_vertex_record _ _ _ Hwf Har) as Hoka.
  pose proof (wf_vertex_record _ _ _ Hwf Hbr) as Hokb.
  unfold vertex_ok in *.
  destruct Hwf as (Hv & He & Hfs & Hnv & Hne & Hnf & Hvh & Heh & Hfh).
  unfold wf, vertex_ok, edge_ok, face_ok, mef_state. simpl.
  rewrite !length_app. simpl. rewrite !Nat.add_1_r.
  split; [done|]. split; [by apply Forall_lt_snoc|]. split; [by apply Forall_lt_snoc|].
  split; [done|]. split; [by apply NoDup_snoc_fresh|]. split; [by apply NoDup_snoc_fresh|].
  split; [|split].
  - eapply Forall_impl; [exact Hvh|]. intros r. unfold vertex_ok. apply ptr_ok_mono. lia.
  - apply Forall_app. split.
    + eapply Forall_impl; [exact Heh|]. intros r (?&?&?&?&?&?&?&?).
      repeat split; try done; eapply ptr_ok_mono; try eassumption; lia.
    + apply Forall_singleton. simpl.
      repeat split; try lia; eapply ptr_ok_mono; try eassumption; lia.
  - apply Forall_app. split; [|apply Forall_singleton; simpl; lia].
    eapply Forall_impl; [exact Hfh|]. intros r. unfold face_ok. apply ptr_ok_mono. lia.
Qed.

Lemma Forall_sublist {A} (P : A → Prop) (l1 l2 : list A) :
  Forall P l2 → sublist l1 l2 → Forall P l1.
Proof.
  rewrite !Forall_forall. intros Hall Hsub x Hx. apply Hall.
  by eapply sublist_submseteq, elem_of_submseteq in Hsub.
Qed.

Lemma sweep_Forall (P : Edge → Prop) fa fb l :
  (∀ r, P r → P (kef_fix fa fb r)) →
  ∀ h, Forall P h → Forall P (sweep fa fb l h).
Proof.
  intros Hfix. induction l as [|p l IH]; intros h Hh; simpl; [done|].
  apply IH. apply Forall_alter; [done|]. intros r _. apply Hfix.
Qed.

Lemma kef_fix_ok k fa fb r :
  ptr_ok (length (fheap k)) fa → edge_ok k r → edge_ok k (kef_fix fa fb r).
Proof.
  intros Hfa (?&?&?&?&?&?&?&?).
  destruct (kef_fix_fields fa fb r) as (E1 & E2 & _ & E4 & E5 & E6 & E7 & E8 & E9).
  unfold edge_ok. rewrite E1, E2, E4, E5, E6, E7, E8, E9. clear E1 E2.
  repeat split; try done; by case_bool_decide.
Qed.

(** Replacing the edge records by as many records that are in order, and
    shrinking the pools, keeps a state well formed. *)
Lemma wf_rewrite k h es fs :
  wf k → length h = length (eheap k) → Forall (edge_ok k) h →
  sublist es (edges k) → sublist fs (faces k) →
  wf (mkKernel (vheap k) h (fheap k) (vertices k) es fs
               (next_v_id k) (next_e_id k) (next_f_id k)).
Proof.
  intros (Hv & He & Hfs & Hnv & Hne & Hnf & Hvh & Heh & Hfh) Hlen Hh Hes Hfs'.
  unfold wf, vertex_ok, edge_ok, face_ok. simpl. rewrite Hlen.
  split; [done|]. split; [exact (Forall_sublist _ _ _ He Hes)|].
  split; [exact (Forall_sublist _ _ _ Hfs Hfs')|].
  split; [done|]. split; [exact (sublist_NoDup _ _ Hne Hes)|].
  split; [exact (sublist_NoDup _ _ Hnf Hfs')|].
  done.
Qed.

Lemma wf_kef k e f k' :
  wf k → e < length (eheap k) → kef (Some e) k = (Ok f, k') → wf k'.
Proof.
  intros Hwf He Hrun.
  destruct (lookup_lt_is_Some_2 _ _ He) as [er Her].
  pose proof (wf_edge_record _ _ _ Hwf Her) as Hok.
  destruct (f1 er) as [fa|] eqn:H1; [destruct (f2 er) as [fb|] eqn:H2|].
  - rewrite (kef_run k e er fa fb) in Hrun; try done; [|by destruct Hwf as (_ & ? & _)].
    simplify_eq. unfold kef_state. apply wf_rewrite; try done.
    + apply sweep_length.
    + apply sweep_Forall; [|by destruct Hwf as (_&_&_&_&_&_&_&?&_)].
      intros r. apply kef_fix_ok. destruct Hok as (_&_&Hf1&_). by rewrite H1 in Hf1.
    + apply sublist_filter.
    + apply sublist_filter.
  - unfold kef in Hrun. unfold mbind, M_bind, bind at 1 in Hrun. unfold read_edge at 1 in Hrun.
    rewrite Her, H1, H2 in Hrun. simpl in Hrun. discriminate.
  - unfold kef in Hrun. unfold mbind, M_bind, bind at 1 in Hrun. unfold read_edge at 1 in Hrun.
    rewrite Her, H1 in Hrun. simpl in Hrun. discriminate.
Qed.

Lemma walk_in_heap k side fuel : ∀ start current visited result l,
  walk k side fuel start current visited result = Some (Ok l) →
  Forall (λ p, p < length (eheap k)) result →
  Forall (λ p, p < length (eheap k)) l.
Proof.
  induction fuel as [|fuel IH]; intros start current visited result l Hw Hres; [done|].
  simpl in Hw. destruct (eheap k !! current) as [ce|] eqn:Hce; [|done].
  assert (Hres' : Forall (λ p, p < length (eheap k)) (result ++ [current])).
  { apply Forall_app. split; [done|]. apply Forall_singleton. by eapply lookup_lt_Some. }
  case_bool_decide; [by simplify_eq|].
  destruct (side ce) as [[next|]|]; [|by simplify_eq..].
  case_bool_decide; [by simplify_eq|].
  case_bool_decide; [by simplify_eq|].
  by eapply IH.
Qed.

Lemma getFaceBoundary_in_heap k f l :
  getFaceBoundary k f = Ok l → Forall (λ p, p < length (eheap k)) l.
Proof.
  unfold getFaceBoundary, getFaceBoundary_fuel. intros H.
  destruct f as [pf|]; [|simpl in H; simplify_eq; apply Forall_nil_2].
  destruct (fheap k !! pf) as [fr|]; [|done].
  destruct (f_edge fr) as [s|]; [|simpl in H; simplify_eq; apply Forall_nil_2].
  destruct (walk k (face_side pf) (enough k) s s ∅ []) as [r|] eqn:Hw; [|done].
  simpl in H. subst r. eapply walk_in_heap; [exact Hw|apply Forall_nil_2].
Qed.

Lemma wf_kfmrh k h o k' :
  wf k → h < length (fheap k) → o < length (fheap k) →
  kfmrh (Some h) (Some o) k = (Ok tt, k') → wf k'.
Proof.
  intros Hwf Hh Ho Hrun. unfold kfmrh in Hrun.
  unfold mbind, M_bind, bind, erase_face, query in Hrun.
  destruct (getFaceBoundary (with_faces (filter (λ q, q ≠ h) (faces k)) k) (Some h))
    as [l| |] eqn:Hb; try discriminate.
  apply getFaceBoundary_in_heap in Hb.
  change (kfmrh_rewrite (Some h) (Some o)) with (kef_rewrite (Some o) (Some h)) in Hrun.
  rewrite for_each_kef in Hrun by done. simplify_eq.
  unfold with_eheap, with_faces. simpl. apply wf_rewrite; try done.
  - apply sweep_length.
  - apply sweep_Forall; [|by destruct Hwf as (_&_&_&_&_&_&_&?&_)].
    intros r. by apply kef_fix_ok.
  - apply sublist_filter.
Qed.

(** Every state the operators can produce from the empty kernel is well
    formed, so the statements below that assume [wf] speak of all of them. *)
Theorem reachable_wf k : reachable k → wf k.
Proof.
  induction 1 as [ | k p v k' _ IH Hrun | k u p f e k' _ IH Hu Hf Hrun
                 | k a b f e k' _ IH Ha Hb Hf Hrun | k e f k' _ IH He Hrun
                 | k h o k' _ IH Hh Ho Hrun ].
  - apply wf_empty.
  - exact (wf_mvsf _ _ _ _ IH Hrun).
  - exact (wf_mev _ _ _ _ _ _ IH Hu Hf Hrun).
  - exact (wf_mef _ _ _ _ _ _ IH Ha Hb Hf Hrun).
  - exact (wf_kef _ _ _ _ IH He Hrun).
  - exact (wf_kfmrh _ _ _ _ IH Hh Ho Hrun).
Qed.

(** The scenarios are such states. *)
Lemma reachable_spur : reachable spur.
Proof.
  eapply (reach_mev (exec (mvsf (mkPoint3D 0 0 0)) empty) 0 (mkPoint3D 1 0 0) 0 0).
  - eapply (reach_mvsf empty (mkPoint3D 0 0 0) 0); [apply reach_empty|reflexivity].
  - vm_compute. lia.
  - vm_compute. lia.
  - vm_compute. reflexivity.
Qed.

Lemma reachable_open_triangle : reachable open_triangle.
Proof.
  eapply (reach_mev spur 1 (mkPoint3D 0.5 1 0) 0 1); [apply reachable_spur|..].
  - vm_compute. lia.
  - vm_compute. lia.
  - vm_compute. reflexivity.
Qed.

Lemma reachable_triangle : reachable triangle.
Proof.
  eapply (reach_mef open_triangle 2 0 0 2); [apply reachable_open_triangle|..].
  - vm_compute. lia.
  - vm_compute. lia.
  - vm_compute. lia.
  - vm_compute. reflexivity.
Qed.



Lemma C6_mev_witness :
  ∃ e w k',
    mev (Some 1) (mkPoint3D 1 1 0) (Some 0) spur = (Ok e, k') ∧
    vertices k' = vertices spur ++ [w] ∧ (w ∉ vertices spur) ∧
    edges k' = edges spur ++ [e] ∧ (e ∉ edges spur) ∧
    faces k' = faces spur ∧
    getVertexCount k' = S (getVertexCount spur) ∧
    getEdgeCount k' = S (getEdgeCount spur) ∧
    getFaceCount k' = getFaceCount spur ∧
    (∃ wr, vheap k' !! w = Some wr ∧ coords wr = mkPoint3D 1 1 0) ∧
    (∃ er, eheap k' !! e = Some er ∧
           v1 er = Some 1 ∧ v2 er = Some w ∧ f1 er = Some 0 ∧ f2 er = Some 0).
Proof.
  apply (C6_mev_makes_edge_and_vertex spur 1 (mkPoint3D 1 1 0) 0).
  - exact wf_spur.
  - by_compute.
  - by_compute.
Defined.

Lemma C2_kef_witness :
  ∃ k',
    kef (Some 2) triangle = (Ok (Some 0), k') ∧
    edges k' = filter (λ q, q ≠ 2) (edges triangle) ∧ (2 ∉ edges k') ∧
    faces k' = filter (λ q, q ≠ 1) (faces triangle) ∧ (1 ∉ faces k') ∧
    vertices k' = vertices triangle ∧
    S (getEdgeCount k') = getEdgeCount triangle ∧
    S (getFaceCount k') = getFaceCount triangle ∧
    getVertexCount k' = getVertexCount triangle ∧
    (∀ e' r, e' ∈ edges k' → eheap triangle !! e' = Some r →
       ∃ r', eheap k' !! e' = Some r' ∧
         f1 r' = (if bool_decide (f1 r = Some 1) then Some 0 else f1 r) ∧
         f2 r' = (if bool_decide (f2 r = Some 1) then Some 0 else f2 r) ∧
         f1 r' ≠ Some 1 ∧ f2 r' ≠ Some 1 ∧
         e_id r' = e_id r ∧ v1 r' = v1 r ∧ v2 r' = v2 r ∧
         p1_f1 r' = p1_f1 r ∧ n1_f1 r' = n1_f1 r ∧
         p2_f2 r' = p2_f2 r ∧ n2_f2 r' = n2_f2 r).
Proof.
  apply (C2_kef_merges_faces triangle 2
           (mkEdge 3 (Some 2) (Some 0) (Some 0) (Some 1) (Some 1) (Some 1) (Some 0) (Some 0))
           0 1).
  - exact wf_triangle.
  - by_compute.
  - reflexivity.
  - reflexivity.
  - reflexivity.
  - lia.
  - by_compute.
Defined.

Lemma C3_roundtrip_witness :
  ∃ e k1 k2,
    mef (Some 2) (Some 0) (Some 0) open_triangle = (Ok e, k1) ∧
    kef (Some e) k1 = (Ok (Some 0), k2) ∧
    getVertexCount k2 = getVertexCount open_triangle ∧
    getEdgeCount k2 = getEdgeCount open_triangle ∧
    getFaceCount k2 = getFaceCount open_triangle ∧
    vertices k2 = vertices open_triangle ∧ edges k2 = edges open_triangle ∧
    faces k2 = faces open_triangle ∧
    (∀ h, live open_triangle h → live k2 h ∧ adjacency k2 h = adjacency open_triangle h) ∧
    (∀ v, v ∈ vertices open_triangle →
       getIncidentEdges k2 (Some v) = getIncidentEdges open_triangle (Some v)) ∧
    (∀ g, g ∈ faces open_triangle →
       getFaceBoundary k2 (Some g) = getFaceBoundary open_triangle (Some g)).
Proof.
  apply (C3_mef_kef_roundtrip open_triangle 2 0 0).
  - exact wf_open_triangle.
  - by_compute.
  - by_compute.
  - by_compute.
  - lia.
Defined.

(** *** MEF on the open triangle *)

(** C1, at MEF(v3, v1, f) on the open path v1-v2-v3 (scenario 2), a state
    made by the operators from the empty kernel.  The call makes edge
    [e3 = (v3, v1)] with [e3.f1 = f], [e3.f2 = f'] and the counts change by
    E+1, F+1, V+0; but no face slot of [e1] or [e2] is moved to [f']: both
    keep [f] in both slots, [e3] is the only edge that refers to [f'], and the
    boundary walk of [f'] runs from [e3] into [e1], an edge that does not
    refer to [f']. *)
Theorem C1_mef_no_face_slot_update :
  reachable open_triangle ∧
  ∃ k',
    mef (Some 2) (Some 0) (Some 0) open_triangle = (Ok 2, k') ∧
    k' = triangle ∧
    edges k' = edges open_triangle ++ [2] ∧
    faces k' = faces open_triangle ++ [1] ∧
    vertices k' = vertices open_triangle ∧
    eheap k' !! 2 = Some (mkEdge 3 (Some 2) (Some 0) (Some 0) (Some 1)
                            (Some 1) (Some 1) (Some 0) (Some 0)) ∧
    eheap k' !! 0 = eheap open_triangle !! 0 ∧
    eheap k' !! 1 = eheap open_triangle !! 1 ∧
    (f1 <$> eheap k' !! 0) = Some (Some 0) ∧ (f2 <$> eheap k' !! 0) = Some (Some 0) ∧
    (f1 <$> eheap k' !! 1) = Some (Some 0) ∧ (f2 <$> eheap k' !! 1) = Some (Some 0) ∧
    filter (λ e, refers_to k' 1 e = true) (edges k') = [2] ∧
    getFaceBoundary k' (Some 1) = Ok [2; 0] ∧
    getFaceBoundary k' (Some 0) = Ok [0].
Proof.
  split; [apply reachable_open_triangle|].
  eexists. split; [vm_compute; reflexivity|].
  repeat split; vm_compute; reflexivity.
Qed.

(** In general [mef] writes no record that existed before the call. *)
Lemma mef_writes_nothing k a b f e k' :
  wf k → a ∈ vertices k → b ∈ vertices k → a ≠ b →
  mef (Some a) (Some b) (Some f) k = (Ok e, k') →
  vheap k' = vheap k ∧
  (∀ p, p < length (eheap k) → eheap k' !! p = eheap k !! p) ∧
  (∀ p, p < length (fheap k) → fheap k' !! p = fheap k !! p).
Proof.
  intros Hwf Ha Hb Hab Hrun.
  destruct (wf_vertex _ _ Hwf Ha) as (ar & Har & _).
  destruct (wf_vertex _ _ Hwf Hb) as (br & Hbr & _).
  rewrite (mef_run k a b f ar br) in Hrun by done. simplify_eq.
  unfold mef_state. simpl. split; [done|]. split; intros p Hp; by rewrite lookup_snoc_lt.
Qed.

Lemma filter_none {A} (P : A → Prop) `{∀ x, Decision (P x)} (l : list A) :
  Forall (λ x, ¬ P x) l → filter P l = [].
Proof.
  induction 1 as [|x l Hx _ IH]; [done|]. by rewrite filter_cons_False.
Qed.

(** For every MEF that succeeds, the new face is referred to by the new edge
    alone: no edge of the pool has a face slot moved to it. *)
Lemma mef_moves_no_face_slot k a b f e k' :
  wf k → a ∈ vertices k → b ∈ vertices k → a ≠ b →
  mef (Some a) (Some b) (Some f) k = (Ok e, k') →
  ∃ f' er,
    faces k' = faces k ++ [f'] ∧ edges k' = edges k ++ [e] ∧
    eheap k' !! e = Some er ∧ f1 er = Some f ∧ f2 er = Some f' ∧
    (∀ e', e' ∈ edges k → eheap k' !! e' = eheap k !! e' ∧ refers_to k' f' e' = false) ∧
    filter (λ e', refers_to k' f' e' = true) (edges k') = [e].
Proof.
  intros Hwf Ha Hb Hab Hrun.
  destruct (wf_vertex _ _ Hwf Ha) as (ar & Har & _).
  destruct (wf_vertex _ _ Hwf Hb) as (br & Hbr & _).
  rewrite (mef_run k a b f ar br) in Hrun by done. simplify_eq.
  eexists (length (fheap k)), _. unfold mef_state. simpl.
  split; [done|]. split; [done|]. split; [by apply lookup_snoc_at|].
  split; [done|]. split; [done|].
  assert (Hold : ∀ e', e' ∈ edges k →
            eheap (mef_state k a b f ar br) !! e' = eheap k !! e' ∧
            refers_to (mef_state k a b f ar br) (length (fheap k)) e' = false).
  { intros e' He'. destruct (wf_edge _ _ Hwf He') as (r & Hr & Hok).
    unfold refers_to, mef_state. simpl.
    rewrite lookup_snoc_lt by (by eapply lookup_lt_Some). split; [done|]. rewrite Hr.
    destruct Hok as (_ & _ & H1 & H2 & _).
    apply orb_false_iff. split; apply bool_decide_eq_false_2; intros E.
    - rewrite E in H1. simpl in H1. lia.
    - rewrite E in H2. simpl in H2. lia. }
  split; [exact Hold|].
  rewrite filter_app. rewrite (filter_none _ (edges k)).
  - simpl. rewrite filter_cons_True; [done|].
    unfold refers_to. simpl. rewrite lookup_snoc_at by done. simpl.
    apply orb_true_iff. right. by apply bool_decide_eq_true_2.
  - rewrite Forall_forall. intros e' He'. destruct (Hold e' He') as [_ Hf].
    unfold mef_state in Hf. simpl in Hf. rewrite Hf. done.
Qed.

(** *** Errors *)










(** *** Navigation *)









End KernelFacts.

(* ===================================================================== *)
(** ** Properties of the Mesh facade *)
(* ===================================================================== *)

Module MeshFacts.
Import SketchyMesh MeshSpec.

(** *** Inversion of the monad *)


(** *** The search for an existing edge *)






(** *** What one call may add to the vector of edges *)






(** *** [add_edge] and the search-or-create step *)





(** *** The face and its normal *)



(** *** The wiring loop *)





(** *** [add_face], phase by phase *)



(** *** Meshes of the test suite *)



(** The test [SharedEdge]: triangles (v1,v2,v3) and (v1,v4,v2) share the edge
    between v1 and v2, the mesh has five edges, and both face slots of the
    shared edge are occupied. *)
Example shared_edge_test :
  let m := build [mkVec3 0 0 0; mkVec3 1 0 0; mkVec3 0.5 1 0; mkVec3 0.5 (-1) 0]
                 [[Some 0; Some 1; Some 2]; [Some 0; Some 3; Some 1]] in
  length (edges m) = 5 ∧ find_edge m (Some 0) (Some 1) = Some 0 ∧
  (left_face <$> edges m !! 0) = Some (Some 0) ∧
  (right_face <$> edges m !! 0) = Some (Some 1).
Proof. repeat split; vm_compute; reflexivity. Qed.

(** *** [Face::get_boundary_edges] stops *)

Lemma boundary_loop_terminates m this start fuel : ∀ current result,
  length result ≤ 1000 → 1002 ≤ length result + fuel →
  is_Some (boundary_loop m this start fuel current result).
Proof.
  induction fuel as [|fuel IH]; intros current result Hle Hfuel; [lia|].
  simpl. destruct (edges m !! current) as [ce|]; [|done].
  destruct (if bool_decide (left_face ce = Some this) then _ else _) as [next|]; [|done].
  rewrite length_app. simpl.
  case_bool_decide as Hcap; [done|].
  destruct next as [c|]; [|done]. case_bool_decide; [done|].
  apply IH; rewrite length_app; simpl; lia.
Qed.

(** *** The normal of a face *)





(** In double precision the length of a recorded normal is 1 only up to
    rounding: the triangle (0,0,0), (1,0,0), (0,1,1). *)
Example normal_length_is_rounded :
  let m := build [mkVec3 0 0 0; mkVec3 1 0 0; mkVec3 0 1 1] [[Some 0; Some 1; Some 2]] in
  (Geometry.length ∘ normal <$> faces m !! 0) = Some 0x1.fffffffffffffp-1%float.
Proof. vm_compute. reflexivity. Qed.

(** *** [Vertex::get_incident_edges] need not stop *)

Lemma three_faces_edges :
  edges three_faces !! 0 = Some (mkEdge (Some 0) (Some 1) (Some 0) (Some 2)
                                   (Some 2) (Some 1) (Some 6) (Some 3)) ∧
  edges three_faces !! 3 = Some (mkEdge (Some 1) (Some 2) (Some 1) (Some 2)
                                   (Some 5) (Some 4) (Some 0) (Some 6)) ∧
  edges three_faces !! 4 = Some (mkEdge (Some 2) (Some 3) (Some 1) None
                                   (Some 3) (Some 5) None None) ∧
  edges three_faces !! 5 = Some (mkEdge (Some 3) (Some 1) (Some 1) None
                                   (Some 4) (Some 3) None None) ∧
  (v_edge <$> vertices three_faces !! 0) = Some (Some 0).
Proof. repeat split; vm_compute; reflexivity. Qed.

(** The inner loop entered from edge (a, b) walks the boundary of the face
    (b, c, d) through [left_next] for ever: no edge of that face touches [a]. *)
Lemma skip_loop_cycles (m : Mesh) fuel :
  edges m !! 3 = Some (mkEdge (Some 1) (Some 2) (Some 1) (Some 2)
                         (Some 5) (Some 4) (Some 0) (Some 6)) →
  edges m !! 4 = Some (mkEdge (Some 2) (Some 3) (Some 1) None
                         (Some 3) (Some 5) None None) →
  edges m !! 5 = Some (mkEdge (Some 3) (Some 1) (Some 1) None
                         (Some 4) (Some 3) None None) →
  skip_loop m 0 left_next fuel (Some 3) = None ∧
  skip_loop m 0 left_next fuel (Some 4) = None ∧
  skip_loop m 0 left_next fuel (Some 5) = None.
Proof.
  intros E3 E4 E5.
  induction fuel as [|fuel (IH3 & IH4 & IH5)]; [done|].
  cbn [skip_loop]. rewrite E3, E4, E5. simpl. done.
Qed.

Lemma incident_loop_diverges (m : Mesh) fuel :
  edges m !! 0 = Some (mkEdge (Some 0) (Some 1) (Some 0) (Some 2)
                         (Some 2) (Some 1) (Some 6) (Some 3)) →
  skip_loop m 0 left_next fuel (Some 3) = None →
  incident_loop m 0 0 fuel 0 [] = None.
Proof.
  intros E0 Hskip. destruct fuel as [|fuel]; [done|].
  cbn [incident_loop]. rewrite E0. cbn [v1 right_next].
  rewrite bool_decide_eq_true_2 by done. by rewrite Hskip.
Qed.

(** Whatever the fuel, the walk around vertex [a] of [three_faces] does not
    return: [Vertex::get_incident_edges] loops for ever on a mesh built by
    [add_vertex] and [add_face] alone. *)
Theorem get_incident_edges_diverges fuel :
  get_incident_edges_fuel fuel three_faces 0 = None.
Proof.
  destruct three_faces_edges as (E0 & E3 & E4 & E5 & Ev).
  unfold get_incident_edges_fuel.
  destruct (vertices three_faces !! 0) as [vr|]; [|done].
  injection Ev as ->.
  apply incident_loop_diverges; [done|].
  by apply skip_loop_cycles.
Qed.

End MeshFacts.
